(** * Playlists: models, history and player

    A shallow embedding of the playlist manager's core: the models
    ([PlaylistSet], [Playlist]), the [History] undo stack and the [Player].

    The program is single-threaded JavaScript working on shared mutable
    objects, so the whole program state is one [World] that every function
    takes and returns:

    - playlist objects live in a heap indexed by object reference, and the
      set [myPlaylists] holds references;
    - a track is known by its identity; an array of tracks can also hold
      [undefined];
    - array indices are integers, and [indexOf], [splice] and indexing
      treat a missing element, a negative index and an index past the end
      as JavaScript does;
    - the closures handed to [History.log] are defunctionalised
      ([Revert]): one constructor per closure, holding what it captures;
    - a notification slot holds [null] or one of the two kinds of callback
      the program installs: a method of a view, which belongs to the view
      layer and leaves the core alone, or the player's bound [stop];
    - the page has one player widget, and [player] is the player in use;
      the arrival of a requested sound and the end of a playing sound are
      events delivered by the host ([stream_ready], [sound_finished]);
    - calls that leave the core (callbacks, [History.log], [save], the
      audio engine) are recorded in an event trace, each notification with
      what its callback sees of the models at that moment. *)

From Stdlib Require Import List ZArith String Bool Lia Arith.
From Stdlib Require Import Decimal DecimalString.
From Stdlib Require DecimalNat Finite.
Import ListNotations.

Local Open Scope string_scope.
Local Open Scope list_scope.

(* ================================================================== *)
(** ** JavaScript values and arrays *)

(** What an array of tracks can hold: a track object, known by its
    identity, or [undefined] (which [moveTrack] inserts when [from] is out
    of range). *)
Inductive JsVal : Type :=
| Undefined
| TrackObj (ref : nat).

(** Strict equality, as used by [Array.prototype.indexOf]. *)
Definition JsVal_eqb (a b : JsVal) : bool :=
  match a, b with
  | Undefined, Undefined => true
  | TrackObj x, TrackObj y => Nat.eqb x y
  | _, _ => false
  end.

Section JsArray.
Context {A : Type}.
Variable eqb : A -> A -> bool.

(** [indexOf]: index of the first element equal to [x], or -1. *)
Fixpoint indexOf_from (l : list A) (x : A) (i : Z) : Z :=
  match l with
  | [] => (-1)%Z
  | y :: l' => if eqb y x then i else indexOf_from l' x (i + 1)%Z
  end.

Definition indexOf (l : list A) (x : A) : Z := indexOf_from l x 0%Z.

(** The start position of [splice]: a negative start counts from the
    end, and the result is clamped to [0 .. length]. *)
Definition relativeStart (len : nat) (start : Z) : nat :=
  if (start <? 0)%Z
  then Z.to_nat (Z.max (Z.of_nat len + start) 0)
  else Nat.min (Z.to_nat start) len.

(** [l.splice(start, 1)]: removes one element at the start position, or
    none when the position is the length. *)
Definition splice_delete1 (l : list A) (start : Z) : list A :=
  let k := relativeStart (List.length l) start in
  firstn k l ++ skipn (S k) l.

(** [l.splice(start, 0, x)]. *)
Definition splice_insert (l : list A) (start : Z) (x : A) : list A :=
  let k := relativeStart (List.length l) start in
  firstn k l ++ x :: skipn k l.

(** [l.push(x)]. *)
Definition push (l : list A) (x : A) : list A := l ++ [x].
End JsArray.

(** [l[i]] on an array of tracks: [undefined] out of range. *)
Definition array_get (l : list JsVal) (i : Z) : JsVal :=
  if (i <? 0)%Z then Undefined else nth (Z.to_nat i) l Undefined.

(* ================================================================== *)
(** ** Data model *)

Definition PlaylistRef := nat.
Definition SoundRef := nat.

(** The callbacks the program installs in notification slots. *)
Inductive Callback : Type :=
| ViewCallback (view : nat)   (* a view method; updates the DOM only *)
| PlayerStop.                 (* bind(player, player.stop) *)

Inductive Slot : Type :=
| OnChange | OnDeletePlaylist
| OnTitleChange | OnDescriptionChange | OnTracksChange
| OnAddTrack | OnDeleteTrack | OnMoveTrack.

Definition Slot_eqb (a b : Slot) : bool :=
  match a, b with
  | OnChange, OnChange | OnDeletePlaylist, OnDeletePlaylist
  | OnTitleChange, OnTitleChange | OnDescriptionChange, OnDescriptionChange
  | OnTracksChange, OnTracksChange | OnAddTrack, OnAddTrack
  | OnDeleteTrack, OnDeleteTrack | OnMoveTrack, OnMoveTrack => true
  | _, _ => false
  end.

Record Playlist : Type := mkPlaylist {
  title : string;
  description : string;
  tracks : list JsVal;
  onTitleChange : option Callback;
  onDescriptionChange : option Callback;
  onTracksChange : option Callback;
  onAddTrack : option Callback;
  onDeleteTrack : option Callback;
  onMoveTrack : option Callback
}.

(** [new Playlist(title)]. *)
Definition Playlist_new (t : string) : Playlist :=
  mkPlaylist t EmptyString [] None None None None None None.

Record PlaylistSet : Type := mkPlaylistSet {
  playlists : list PlaylistRef;
  onChange : option Callback;
  onDeletePlaylist : option Callback
}.

(** The closures passed to [History.log], one constructor per closure in
    the source, holding the variables the closure captures. *)
Inductive Revert : Type :=
| RevDeletePlaylist (playlist : PlaylistRef)
| RevAddPlaylist (playlist : PlaylistRef)
| RevSetTitle (this : PlaylistRef) (oldTitle : string)
| RevSetDescription (this : PlaylistRef) (oldDescription : string)
| RevDeleteTrack (this : PlaylistRef) (track : JsVal)
| RevAddTrack (this : PlaylistRef) (track : JsVal)
| RevMoveTrack (this : PlaylistRef) (to from : Z).   (* this.moveTrack(to, from) *)

Record HistoryRecord : Type := mkRecord {
  rec_description : string;
  revert : Revert
}.

(** The [History] namespace; the last record is the most recent change. *)
Record HistoryNS : Type := mkHistory {
  records : list HistoryRecord;
  duringUndo : bool
}.

Inductive OnClick : Type := ClickNone | ClickPlay | ClickStop.

Record Player : Type := mkPlayer {
  playlist : PlaylistRef;
  index : Z;
  sound : option SoundRef;
  nextSound : option SoundRef;
  innerHTML : string;        (* the player button's label *)
  onclick : OnClick
}.

(** What a callback can observe of the models when it is called. *)
Record Seen : Type := mkSeen {
  seen_playlists : list PlaylistRef;
  seen_this : option (string * string * list JsVal)
}.

Inductive Arg : Type :=
| AStr (s : string) | AVal (v : JsVal) | ANum (n : Z) | ARef (p : PlaylistRef).

(** What an asynchronous [SC.stream] request does with the sound. *)
Inductive Continuation : Type :=
| ThenPlaySound      (* function(sound) { this.playSound(sound); } *)
| ThenSetNextSound.  (* function(sound) { this.nextSound = sound; } *)

Inductive Event : Type :=
| Notify (slot : Slot) (cb : Callback) (args : list Arg) (seen : Seen)
| LogCall (description : string) (pushed : bool)
| Saved (data : list (string * string * list JsVal))
| SoundStop (s : SoundRef)
| SoundPlay (s : SoundRef)              (* with onfinish = playNextTrack *)
| SCStream (track : nat) (k : Continuation)
| TypeError.                            (* [track.id] of undefined *)

Record World : Type := mkWorld {
  heap : PlaylistRef -> Playlist;
  myPlaylists : PlaylistSet;
  History : HistoryNS;
  undoButton : string * bool;           (* innerHTML, disabled *)
  localStorage : option (list (string * string * list JsVal));
  window_index : option Z;              (* the implicit global [index] *)
  window_title : option string;         (* the implicit global [title] *)
  player : Player;
  trace : list Event
}.

(** *** Field updates *)

Definition set_heap (h : PlaylistRef -> Playlist) (w : World) : World :=
  mkWorld h (myPlaylists w) (History w) (undoButton w) (localStorage w)
          (window_index w) (window_title w) (player w) (trace w).

Definition set_myPlaylists (s : PlaylistSet) (w : World) : World :=
  mkWorld (heap w) s (History w) (undoButton w) (localStorage w)
          (window_index w) (window_title w) (player w) (trace w).

Definition set_History (h : HistoryNS) (w : World) : World :=
  mkWorld (heap w) (myPlaylists w) h (undoButton w) (localStorage w)
          (window_index w) (window_title w) (player w) (trace w).

Definition set_undoButton (b : string * bool) (w : World) : World :=
  mkWorld (heap w) (myPlaylists w) (History w) b (localStorage w)
          (window_index w) (window_title w) (player w) (trace w).

Definition set_localStorage (d : list (string * string * list JsVal))
           (w : World) : World :=
  mkWorld (heap w) (myPlaylists w) (History w) (undoButton w) (Some d)
          (window_index w) (window_title w) (player w) (trace w).

Definition set_window_index (i : Z) (w : World) : World :=
  mkWorld (heap w) (myPlaylists w) (History w) (undoButton w) (localStorage w)
          (Some i) (window_title w) (player w) (trace w).

Definition set_window_title (t : string) (w : World) : World :=
  mkWorld (heap w) (myPlaylists w) (History w) (undoButton w) (localStorage w)
          (window_index w) (Some t) (player w) (trace w).

Definition set_player (p : Player) (w : World) : World :=
  mkWorld (heap w) (myPlaylists w) (History w) (undoButton w) (localStorage w)
          (window_index w) (window_title w) p (trace w).

Definition emit (e : Event) (w : World) : World :=
  mkWorld (heap w) (myPlaylists w) (History w) (undoButton w) (localStorage w)
          (window_index w) (window_title w) (player w) (trace w ++ [e]).

(** Assignment to a field of the playlist object [this]. *)
Definition heap_with (this : PlaylistRef) (f : Playlist -> Playlist)
           (h : PlaylistRef -> Playlist) : PlaylistRef -> Playlist :=
  fun q => if Nat.eqb q this then f (h this) else h q.

Definition update_playlist (this : PlaylistRef) (f : Playlist -> Playlist)
           (w : World) : World :=
  set_heap (heap_with this f (heap w)) w.

Definition with_title (t : string) (p : Playlist) : Playlist :=
  mkPlaylist t (description p) (tracks p) (onTitleChange p)
             (onDescriptionChange p) (onTracksChange p) (onAddTrack p)
             (onDeleteTrack p) (onMoveTrack p).

Definition with_description (d : string) (p : Playlist) : Playlist :=
  mkPlaylist (title p) d (tracks p) (onTitleChange p)
             (onDescriptionChange p) (onTracksChange p) (onAddTrack p)
             (onDeleteTrack p) (onMoveTrack p).

Definition with_tracks (l : list JsVal) (p : Playlist) : Playlist :=
  mkPlaylist (title p) (description p) l (onTitleChange p)
             (onDescriptionChange p) (onTracksChange p) (onAddTrack p)
             (onDeleteTrack p) (onMoveTrack p).

Definition with_onTracksChange (c : option Callback) (p : Playlist) : Playlist :=
  mkPlaylist (title p) (description p) (tracks p) (onTitleChange p)
             (onDescriptionChange p) c (onAddTrack p)
             (onDeleteTrack p) (onMoveTrack p).

Definition with_onAddTrack (c : option Callback) (p : Playlist) : Playlist :=
  mkPlaylist (title p) (description p) (tracks p) (onTitleChange p)
             (onDescriptionChange p) (onTracksChange p) c
             (onDeleteTrack p) (onMoveTrack p).

Definition with_playlists (l : list PlaylistRef) (s : PlaylistSet) : PlaylistSet :=
  mkPlaylistSet l (onChange s) (onDeletePlaylist s).

Definition with_index (i : Z) (p : Player) : Player :=
  mkPlayer (playlist p) i (sound p) (nextSound p) (innerHTML p) (onclick p).

Definition with_sound (s : option SoundRef) (p : Player) : Player :=
  mkPlayer (playlist p) (index p) s (nextSound p) (innerHTML p) (onclick p).

Definition with_nextSound (s : option SoundRef) (p : Player) : Player :=
  mkPlayer (playlist p) (index p) (sound p) s (innerHTML p) (onclick p).

Definition with_button (label : string) (c : OnClick) (p : Player) : Player :=
  mkPlayer (playlist p) (index p) (sound p) (nextSound p) label c.

Definition update_player (f : Player -> Player) (w : World) : World :=
  set_player (f (player w)) w.

(* ================================================================== *)
(** ** Player.stop and the notification protocol *)

(** [Player.prototype.stop]. *)
Definition Player_stop (w : World) : World :=
  let w := update_player (with_button "Play" ClickPlay) w in
  let w :=
    match sound (player w) with
    | Some s =>
        let w := emit (SoundStop s) w in
        let w := update_player (with_sound None) w in
        update_player (with_nextSound None) w
    | None => w
    end in
  update_player (with_index (-1)%Z) w.

Definition observe (this : option PlaylistRef) (w : World) : Seen :=
  mkSeen (playlists (myPlaylists w))
         (option_map (fun p => (title (heap w p), description (heap w p),
                                tracks (heap w p))) this).

Definition run_callback (c : Callback) (w : World) : World :=
  match c with
  | ViewCallback _ => w
  | PlayerStop => Player_stop w
  end.

(** [slot && slot(args)]: calls the callback held by a slot, if any.  The
    trace records what the callback sees of the models at that moment. *)
Definition fire (this : option PlaylistRef) (slot : Slot)
           (cb : option Callback) (args : list Arg) (w : World) : World :=
  match cb with
  | None => w
  | Some c => run_callback c (emit (Notify slot c args (observe this w)) w)
  end.

(* ================================================================== *)
(** ** History.update, History.log *)

(** [History.update]: refreshes the Undo button. *)
Definition History_update (w : World) : World :=
  let rs := records (History w) in
  if (0 <? List.length rs)%nat then
    match nth_error rs (List.length rs - 1) with
    | Some r => set_undoButton (String.append "Undo " (rec_description r), false) w
    | None => w
    end
  else set_undoButton ("Undo", true) w.

(** [History.log]. *)
Definition History_log (d : string) (rv : Revert) (w : World) : World :=
  let w := emit (LogCall d (negb (duringUndo (History w)))) w in
  if negb (duringUndo (History w)) then
    let w := set_History (mkHistory (push (records (History w)) (mkRecord d rv))
                                    (duringUndo (History w))) w in
    History_update w
  else w.

(* ================================================================== *)
(** ** PlaylistSet *)

(** What [JSON.stringify] keeps of the set: the data fields of its
    playlists, in order. *)
Definition saved_data (w : World) : list (string * string * list JsVal) :=
  map (fun p => (title (heap w p), description (heap w p), tracks (heap w p)))
      (playlists (myPlaylists w)).

(** [PlaylistSet.prototype.save]: the whole set is written to
    [localStorage.playlists]. *)
Definition PlaylistSet_save (w : World) : World :=
  let s := saved_data w in
  set_localStorage s (emit (Saved s) w).

Definition PlaylistSet_addPlaylist (p : PlaylistRef) (w : World) : World :=
  let w := set_myPlaylists
             (with_playlists (push (playlists (myPlaylists w)) p) (myPlaylists w)) w in
  let w := fire None OnChange (onChange (myPlaylists w)) [] w in
  let w := History_log "Add Playlist" (RevDeletePlaylist p) w in
  PlaylistSet_save w.

Definition PlaylistSet_deletePlaylist (p : PlaylistRef) (w : World) : World :=
  let i := indexOf Nat.eqb (playlists (myPlaylists w)) p in
  let w := set_myPlaylists
             (with_playlists (splice_delete1 (playlists (myPlaylists w)) i)
                             (myPlaylists w)) w in
  let w := fire None OnChange (onChange (myPlaylists w)) [] w in
  let w := fire None OnDeletePlaylist (onDeletePlaylist (myPlaylists w)) [ARef p] w in
  let w := History_log "Delete Playlist" (RevAddPlaylist p) w in
  PlaylistSet_save w.

(** Decimal rendering of a loop counter, as ['Playlist ' + n] does. *)
Definition string_of_nat (n : nat) : string :=
  NilEmpty.string_of_uint (Nat.to_uint n).

(** The body of the [for] loop of [uniqueTitle], [k] iterations before
    [n] reaches 1000.  The candidate is assigned to the global [title]. *)
Fixpoint uniqueTitle_loop (k n : nat) (w : World) : option string * World :=
  match k with
  | O => (None, w)
  | S k' =>
      let t := String.append "Playlist " (string_of_nat n) in
      let w := set_window_title t w in
      let found := existsb (fun p => String.eqb (title (heap w p)) t)
                           (playlists (myPlaylists w)) in
      if negb found then (Some t, w) else uniqueTitle_loop k' (S n) w
  end.

(** [PlaylistSet.prototype.uniqueTitle]; [None] is [undefined]. *)
Definition PlaylistSet_uniqueTitle (w : World) : option string * World :=
  uniqueTitle_loop 999 1 w.

(* ================================================================== *)
(** ** Playlist *)

Definition Playlist_setTitle (this : PlaylistRef) (t : string) (w : World) : World :=
  let oldTitle := title (heap w this) in
  let w := update_playlist this (with_title t) w in
  let w := fire (Some this) OnTitleChange (onTitleChange (heap w this)) [AStr t] w in
  let w := History_log "Set Description" (RevSetTitle this oldTitle) w in
  PlaylistSet_save w.

Definition Playlist_setDescription (this : PlaylistRef) (d : string) (w : World) : World :=
  let oldDescription := description (heap w this) in
  let w := update_playlist this (with_description d) w in
  let w := fire (Some this) OnDescriptionChange
                (onDescriptionChange (heap w this)) [AStr d] w in
  let w := History_log "Set Description" (RevSetDescription this oldDescription) w in
  PlaylistSet_save w.

Definition Playlist_addTrack (this : PlaylistRef) (track : JsVal) (w : World) : World :=
  let w := fire (Some this) OnTracksChange (onTracksChange (heap w this)) [] w in
  let w := update_playlist this (fun p => with_tracks (push (tracks p) track) p) w in
  let w := fire (Some this) OnAddTrack (onAddTrack (heap w this)) [AVal track] w in
  let w := History_log "Add Track" (RevDeleteTrack this track) w in
  PlaylistSet_save w.

Definition Playlist_deleteTrack (this : PlaylistRef) (track : JsVal) (w : World) : World :=
  let w := fire (Some this) OnTracksChange (onTracksChange (heap w this)) [] w in
  let i := indexOf JsVal_eqb (tracks (heap w this)) track in
  let w := set_window_index i w in
  let w := update_playlist this (fun p => with_tracks (splice_delete1 (tracks p) i) p) w in
  let w := fire (Some this) OnDeleteTrack (onDeleteTrack (heap w this)) [ANum i] w in
  let w := History_log "Delete Track" (RevAddTrack this track) w in
  PlaylistSet_save w.

Definition Playlist_moveTrack (this : PlaylistRef) (from to : Z) (w : World) : World :=
  let w := fire (Some this) OnTracksChange (onTracksChange (heap w this)) [] w in
  if (from =? to)%Z then w
  else
    let track := array_get (tracks (heap w this)) from in
    let w := update_playlist this
               (fun p => with_tracks (splice_delete1 (tracks p) from) p) w in
    let w := update_playlist this
               (fun p => with_tracks (splice_insert (tracks p) to track) p) w in
    let w := fire (Some this) OnMoveTrack (onMoveTrack (heap w this))
                  [ANum from; ANum to] w in
    let w := History_log "Move Track" (RevMoveTrack this to from) w in
    PlaylistSet_save w.

(* ================================================================== *)
(** ** History.undo *)

(** Calling a logged closure. *)
Definition call_revert (rv : Revert) (w : World) : World :=
  match rv with
  | RevDeletePlaylist p => PlaylistSet_deletePlaylist p w
  | RevAddPlaylist p => PlaylistSet_addPlaylist p w
  | RevSetTitle this oldTitle => Playlist_setTitle this oldTitle w
  | RevSetDescription this oldDescription =>
      Playlist_setDescription this oldDescription w
  | RevDeleteTrack this track => Playlist_deleteTrack this track w
  | RevAddTrack this track => Playlist_addTrack this track w
  | RevMoveTrack this to from => Playlist_moveTrack this to from w
  end.

Definition set_duringUndo (b : bool) (w : World) : World :=
  set_History (mkHistory (records (History w)) b) w.

(** [History.undo]. *)
Definition History_undo (w : World) : World :=
  let rs := records (History w) in
  if Nat.eqb (List.length rs) 0 then w
  else
    match nth_error rs (List.length rs - 1) with
    | None => w
    | Some undo =>
        let w := set_History (mkHistory (removelast rs) (duringUndo (History w))) w in
        let w := set_duringUndo true w in
        let w := call_revert (revert undo) w in
        let w := set_duringUndo false w in
        History_update w
    end.

(* ================================================================== *)
(** ** Player *)

(** The tracks of the playlist the player plays. *)
Definition player_tracks (w : World) : list JsVal :=
  tracks (heap w (playlist (player w))).

(** [SC.stream(track.id, k)]: reading [id] of [undefined] throws. *)
Definition SC_stream (track : JsVal) (k : Continuation) (w : World) : World :=
  match track with
  | TrackObj t => emit (SCStream t k) w
  | Undefined => emit TypeError w
  end.

(** [Player.prototype.playSound]. *)
Definition Player_playSound (s : SoundRef) (w : World) : World :=
  let w := update_player (with_sound (Some s)) w in
  let w := emit (SoundPlay s) w in
  let w := update_player (with_nextSound None) w in
  if (index (player w) + 1 <? Z.of_nat (List.length (player_tracks w)))%Z then
    let track := array_get (player_tracks w) (index (player w) + 1)%Z in
    SC_stream track ThenSetNextSound w
  else w.

(** [Player.prototype.playNextTrack]. *)
Definition Player_playNextTrack (w : World) : World :=
  let w := update_player (fun p => with_index (index p + 1)%Z p) w in
  if (index (player w) >=? Z.of_nat (List.length (player_tracks w)))%Z then
    let w := update_player (with_sound None) w in
    Player_stop w
  else
    match nextSound (player w) with
    | Some s =>
        let w := update_player (with_nextSound None) w in
        Player_playSound s w
    | None =>
        let track := array_get (player_tracks w) (index (player w)) in
        SC_stream track ThenPlaySound w
    end.

(** [Player.prototype.play]. *)
Definition Player_play (w : World) : World :=
  let w := update_player (with_button "Stop" ClickStop) w in
  let w := update_player (with_index (-1)%Z) w in
  let w := update_player (with_nextSound None) w in
  Player_playNextTrack w.

(** [new Player(playlist)]. *)
Definition Player_new (pl : PlaylistRef) (w : World) : World :=
  let w := set_player (mkPlayer pl (-1)%Z None None (innerHTML (player w))
                                (onclick (player w))) w in
  let w := Player_stop w in
  update_playlist pl (with_onTracksChange (Some PlayerStop)) w.

(** [Player.prototype.remove]. *)
Definition Player_remove (w : World) : World :=
  let w := Player_stop w in
  let w := update_player (with_button (innerHTML (player w)) ClickNone) w in
  update_playlist (playlist (player w)) (with_onTracksChange None) w.

(** The events the host delivers to the player: the arrival of a
    requested sound, the end of the playing sound (its [onfinish]), and a
    click on the player button. *)
Definition stream_ready (k : Continuation) (s : SoundRef) (w : World) : World :=
  match k with
  | ThenPlaySound => Player_playSound s w
  | ThenSetNextSound => update_player (with_nextSound (Some s)) w
  end.

Definition sound_finished (w : World) : World := Player_playNextTrack w.

Definition player_click (w : World) : World :=
  match onclick (player w) with
  | ClickPlay => Player_play w
  | ClickStop => Player_stop w
  | ClickNone => w
  end.

(* ================================================================== *)
(** ** Mutator calls as data, and runs *)

Inductive Mutator : Type :=
| AddPlaylist (p : PlaylistRef)
| DeletePlaylist (p : PlaylistRef)
| SetTitle (this : PlaylistRef) (t : string)
| SetDescription (this : PlaylistRef) (d : string)
| AddTrack (this : PlaylistRef) (track : JsVal)
| DeleteTrack (this : PlaylistRef) (track : JsVal)
| MoveTrack (this : PlaylistRef) (from to : Z).

Definition mutate (m : Mutator) (w : World) : World :=
  match m with
  | AddPlaylist p => PlaylistSet_addPlaylist p w
  | DeletePlaylist p => PlaylistSet_deletePlaylist p w
  | SetTitle this t => Playlist_setTitle this t w
  | SetDescription this d => Playlist_setDescription this d w
  | AddTrack this track => Playlist_addTrack this track w
  | DeleteTrack this track => Playlist_deleteTrack this track w
  | MoveTrack this from to => Playlist_moveTrack this from to w
  end.

(** What the user can do to the models: call a mutator or click Undo. *)
Inductive Action : Type :=
| Call (m : Mutator)
| Undo.

Definition step (a : Action) (w : World) : World :=
  match a with
  | Call m => mutate m w
  | Undo => History_undo w
  end.

Definition run (acts : list Action) (w : World) : World :=
  fold_left (fun w a => step a w) acts w.

(** The events a call appended to the trace. *)
Definition emitted (w w' : World) : list Event :=
  skipn (List.length (trace w)) (trace w').

(* ================================================================== *)
(** ** Definitions used to state the properties *)

(** Removing the first occurrence of an element: what [deleteTrack] and
    [deletePlaylist] do to a sequence that holds the element. *)
Fixpoint remove_first {A : Type} (eqb : A -> A -> bool) (x : A) (l : list A) : list A :=
  match l with
  | [] => []
  | y :: l' => if eqb y x then l' else y :: remove_first eqb x l'
  end.

(** The stack after a call of [History.log]. *)
Definition logged (w : World) (d : string) (rv : Revert) : HistoryNS :=
  if duringUndo (History w) then History w
  else mkHistory (records (History w) ++ [mkRecord d rv]) false.

(** *** Events *)

Definition stop_events (w : World) : list Event :=
  match sound (player w) with
  | Some s => [SoundStop s]
  | None => []
  end.

Definition fire_events (this : option PlaylistRef) (slot : Slot)
           (cb : option Callback) (args : list Arg) (w : World) : list Event :=
  match cb with
  | None => []
  | Some c =>
      Notify slot c args (observe this w)
        :: match c with ViewCallback _ => [] | PlayerStop => stop_events w end
  end.

(** The object a mutator is called on: a playlist, or the set. *)
Definition self (m : Mutator) : option PlaylistRef :=
  match m with
  | AddPlaylist _ | DeletePlaylist _ => None
  | SetTitle this _ | SetDescription this _ | AddTrack this _
  | DeleteTrack this _ | MoveTrack this _ _ => Some this
  end.

(** The callback a slot of that object holds. *)
Definition registered (s : Slot) (this : option PlaylistRef) (w : World)
  : option Callback :=
  match s, this with
  | OnChange, _ => onChange (myPlaylists w)
  | OnDeletePlaylist, _ => onDeletePlaylist (myPlaylists w)
  | OnTitleChange, Some p => onTitleChange (heap w p)
  | OnDescriptionChange, Some p => onDescriptionChange (heap w p)
  | OnTracksChange, Some p => onTracksChange (heap w p)
  | OnAddTrack, Some p => onAddTrack (heap w p)
  | OnDeleteTrack, Some p => onDeleteTrack (heap w p)
  | OnMoveTrack, Some p => onMoveTrack (heap w p)
  | _, None => None
  end.

(** Whether the call reaches its [History.log] and [save]: every call
    does, except [moveTrack] with equal indices. *)
Definition logs (m : Mutator) : bool :=
  match m with
  | MoveTrack _ from to => negb (from =? to)%Z
  | _ => true
  end.

(** The slot a call fires before its mutation, and the slots it fires
    after it. *)
Definition pre_slots (m : Mutator) : list Slot :=
  match m with
  | AddTrack _ _ | DeleteTrack _ _ | MoveTrack _ _ _ => [OnTracksChange]
  | _ => []
  end.

Definition post_slots (m : Mutator) : list Slot :=
  match m with
  | AddPlaylist _ => [OnChange]
  | DeletePlaylist _ => [OnChange; OnDeletePlaylist]
  | SetTitle _ _ => [OnTitleChange]
  | SetDescription _ _ => [OnDescriptionChange]
  | AddTrack _ _ => [OnAddTrack]
  | DeleteTrack _ _ => [OnDeleteTrack]
  | MoveTrack _ from to => if (from =? to)%Z then [] else [OnMoveTrack]
  end.

(** Events of the hook called before the mutation: the notification of
    [onTracksChange], seeing the models as [seen], and what its callback
    does to the player. *)
Definition pre_event (seen : Seen) (e : Event) : Prop :=
  match e with
  | Notify s _ _ sn => s = OnTracksChange /\ sn = seen
  | SoundStop _ => True
  | _ => False
  end.

(** Events of the hooks called after the mutation. *)
Definition post_event (seen : Seen) (e : Event) : Prop :=
  match e with
  | Notify s _ _ sn => s <> OnTracksChange /\ sn = seen
  | SoundStop _ => True
  | _ => False
  end.

(** The end of a call: [History.log], then [save]; nothing when the call
    returned early. *)
Definition tail_events (m : Mutator) (w : World) (tl : list Event) : Prop :=
  if logs m
  then exists d, tl = [LogCall d (negb (duringUndo (History w)));
                       Saved (saved_data (mutate m w))]
  else tl = [].

(** Every logged closure is a call of a mutator. *)
Definition mutator_of (rv : Revert) : Mutator :=
  match rv with
  | RevDeletePlaylist p => DeletePlaylist p
  | RevAddPlaylist p => AddPlaylist p
  | RevSetTitle this oldTitle => SetTitle this oldTitle
  | RevSetDescription this oldDescription => SetDescription this oldDescription
  | RevDeleteTrack this track => DeleteTrack this track
  | RevAddTrack this track => AddTrack this track
  | RevMoveTrack this to from => MoveTrack this to from
  end.

(** *** Counting along a run *)

(** The mutator calls of a run that log a record. *)
Fixpoint logged_mutations (acts : list Action) : nat :=
  match acts with
  | [] => 0
  | Call m :: rest => (if logs m then 1 else 0) + logged_mutations rest
  | Undo :: rest => logged_mutations rest
  end.

(** The undos of a run that found a record to revert. *)
Fixpoint completed_undos (acts : list Action) (w : World) : nat :=
  match acts with
  | [] => 0
  | a :: rest =>
      (match a with
       | Undo => if Nat.eqb (List.length (records (History w))) 0 then 0 else 1
       | Call _ => 0
       end) + completed_undos rest (step a w)
  end.

(** *** Undo after a mutator *)

(** The inputs on which a mutator and its logged inverse are exact
    opposites: the entity added is new to the sequence, the entity deleted
    is in it, and a move is between two different positions of the
    sequence. *)
Definition admissible (m : Mutator) (w : World) : Prop :=
  match m with
  | AddPlaylist p => ~ In p (playlists (myPlaylists w))
  | DeletePlaylist p => In p (playlists (myPlaylists w))
  | SetTitle _ _ | SetDescription _ _ => True
  | AddTrack this track => ~ In track (tracks (heap w this))
  | DeleteTrack this track => In track (tracks (heap w this))
  | MoveTrack this from to =>
      from <> to /\
      (0 <= from < Z.of_nat (List.length (tracks (heap w this))))%Z /\
      (0 <= to < Z.of_nat (List.length (tracks (heap w this))))%Z
  end.

(** One undo right after the call [m] gives back the models as they were
    before the call, a deleted entity coming back at the end of its
    sequence. *)
Definition restored_by_undo (m : Mutator) (w : World) : Prop :=
  let w' := History_undo (mutate m w) in
  (forall q, title (heap w' q) = title (heap w q)) /\
  (forall q, description (heap w' q) = description (heap w q)) /\
  match m with
  | DeleteTrack this track =>
      playlists (myPlaylists w') = playlists (myPlaylists w) /\
      forall q, tracks (heap w' q) =
                if Nat.eqb q this
                then remove_first JsVal_eqb track (tracks (heap w this)) ++ [track]
                else tracks (heap w q)
  | DeletePlaylist p =>
      playlists (myPlaylists w') =
        remove_first Nat.eqb p (playlists (myPlaylists w)) ++ [p] /\
      forall q, tracks (heap w' q) = tracks (heap w q)
  | _ =>
      playlists (myPlaylists w') = playlists (myPlaylists w) /\
      forall q, tracks (heap w' q) = tracks (heap w q)
  end.

(** *** Titles *)

Definition numbered_title (n : nat) : string :=
  String.append "Playlist " (string_of_nat n).

(** Some playlist of the set is titled ["Playlist n"]. *)
Definition taken (w : World) (n : nat) : Prop :=
  exists p, In p (playlists (myPlaylists w)) /\
            title (heap w p) = numbered_title n.

(** *** Concrete worlds *)

(** The state after [onLoad] with nothing stored: an empty set, an empty
    stack, and no player widget in use. *)
Definition initial_world : World :=
  mkWorld (fun _ => Playlist_new EmptyString) (mkPlaylistSet [] None None)
          (mkHistory [] false) ("Undo", true) None None None
          (mkPlayer 0 (-1)%Z None None EmptyString ClickNone) [].

Definition trackA : JsVal := TrackObj 1.
Definition trackB : JsVal := TrackObj 2.
Definition trackC : JsVal := TrackObj 3.
Definition trackD : JsVal := TrackObj 4.

(** Playlist 0 is in the set and holds [A, B, C, D], added one by one. *)
Definition world_ABCD : World :=
  run [Call (AddPlaylist 0);
       Call (AddTrack 0 trackA); Call (AddTrack 0 trackB);
       Call (AddTrack 0 trackC); Call (AddTrack 0 trackD)] initial_world.

(** The playlist view of playlist 0 is open: its player is installed in
    [onTracksChange], the user clicked Play, the sound of track 0 arrived
    (sound 10) and plays; a view callback is installed in [onAddTrack]. *)
Definition world_started : World :=
  stream_ready ThenPlaySound 10 (player_click (Player_new 0 world_ABCD)).

Definition world_viewed : World :=
  update_playlist 0 (with_onAddTrack (Some (ViewCallback 1))) world_started.

(** A set of two playlists, 0 and 1. *)
Definition world_two_playlists : World :=
  run [Call (AddPlaylist 0); Call (AddPlaylist 1)] initial_world.

(** A set whose only playlist is titled ["Playlist 1"]. *)
Definition world_one_titled : World :=
  PlaylistSet_addPlaylist 5 (Playlist_setTitle 5 "Playlist 1" initial_world).

(** A set of 999 playlists, the one with reference [n] titled
    ["Playlist n"]. *)
Definition world_all_taken : World :=
  mkWorld (fun q => Playlist_new (numbered_title q))
          (mkPlaylistSet (seq 1 999) None None)
          (mkHistory [] false) ("Undo", true) None None None
          (mkPlayer 0 (-1)%Z None None EmptyString ClickNone) [].

(** Track 0 finished before the preloaded sound of track 1 arrived, so
    the sound of track 1 was requested again; it arrived (sound 11) and
    plays.  The preload of track 2 is still under way. *)
Definition world_playing : World :=
  stream_ready ThenPlaySound 11 (sound_finished world_started).

(** The same, after the preloaded sound of track 2 arrived (sound 12). *)
Definition world_playing_preloaded : World :=
  stream_ready ThenSetNextSound 12 world_playing.

(** The player went on to track 2 and then to the last track, each time
    with the preloaded sound. *)
Definition world_playing_last : World :=
  sound_finished
    (stream_ready ThenSetNextSound 13 (sound_finished world_playing_preloaded)).

(** The playlist view of the empty playlist 1 is open; its player is
    idle. *)
Definition world_idle_empty : World := Player_new 1 world_ABCD.

(* ================================================================== *)
(** ** Further definitions *)

(** [History.initialize]: installs [History.undo] as the handler of the
    Undo button (the [Undo] action) and refreshes the button. *)
Definition History_initialize (w : World) : World := History_update w.

(** What the Undo button shows for a stack: the description of the most
    recent record, or a disabled button when there is none. *)
Definition button_for (rs : list HistoryRecord) : string * bool :=
  match List.rev rs with
  | r :: _ => (String.append "Undo " (rec_description r), false)
  | [] => ("Undo", true)
  end.

(** The Undo button shows the stack. *)
Definition button_synced (w : World) : Prop :=
  undoButton w = button_for (records (History w)).

(** The stored snapshot is the snapshot of the models. *)
Definition persisted (w : World) : Prop :=
  localStorage w = Some (saved_data w).

(** Two worlds with the same models and the same stack. *)
Definition same_models (w1 w2 : World) : Prop :=
  (forall q, heap w1 q = heap w2 q) /\
  myPlaylists w1 = myPlaylists w2 /\
  History w1 = History w2.

(** The mutators whose logged inverse is exact: all but the deletions. *)
Definition deletes (m : Mutator) : bool :=
  match m with
  | DeletePlaylist _ | DeleteTrack _ _ => true
  | _ => false
  end.

(** A sequence of calls, each admissible in the state it is made in and
    none of them a deletion. *)
Fixpoint exact_calls (ms : list Mutator) (w : World) : Prop :=
  match ms with
  | [] => True
  | m :: ms' => admissible m w /\ deletes m = false /\ exact_calls ms' (mutate m w)
  end.

(** The playlist whose track sequence a mutator changes. *)
Definition track_mutator_of (m : Mutator) : option PlaylistRef :=
  match m with
  | AddTrack this _ | DeleteTrack this _ | MoveTrack this _ _ => Some this
  | _ => None
  end.

(** The fields of a playlist that a mutator is not about. *)
Definition other_fields_kept (m : Mutator) (p p' : Playlist) : Prop :=
  match m with
  | AddPlaylist _ | DeletePlaylist _ => p' = p
  | SetTitle _ _ => description p' = description p /\ tracks p' = tracks p
  | SetDescription _ _ => title p' = title p /\ tracks p' = tracks p
  | AddTrack _ _ | DeleteTrack _ _ | MoveTrack _ _ _ =>
      title p' = title p /\ description p' = description p
  end.


(** *** Player *)

(** The player is stopped: nothing plays, and the button offers Play. *)
Definition player_stopped (p : Player) : Prop :=
  index p = (-1)%Z /\ sound p = None /\
  innerHTML p = "Play" /\ onclick p = ClickPlay.

(** The events the host delivers to the player. *)
Inductive PlayerEvent : Type :=
| Click
| Finished
| Arrived (k : Continuation) (s : SoundRef).

Definition player_step (e : PlayerEvent) (w : World) : World :=
  match e with
  | Click => player_click w
  | Finished => sound_finished w
  | Arrived k s => stream_ready k s w
  end.

Definition player_run (es : list PlayerEvent) (w : World) : World :=
  fold_left (fun w e => player_step e w) es w.

(** Playback without gaps: each preloaded sound arrives while the track
    before it plays, and is started when that track finishes. *)
Definition gapless_from (ss : list SoundRef) (w : World) : World :=
  fold_left (fun w s => sound_finished (stream_ready ThenSetNextSound s w)) ss w.

(** The user clicks Play, the sound [s0] of the first track arrives, the
    other sounds [ss] arrive and play without gaps, and the last one
    finishes. *)
Definition play_through (s0 : SoundRef) (ss : list SoundRef) (w : World) : World :=
  sound_finished (gapless_from ss (stream_ready ThenPlaySound s0 (Player_play w))).

(** The preload request [playSound] makes for the entry after the one it
    starts. *)
Definition preload_request (next : list JsVal) : list Event :=
  match next with
  | TrackObj t :: _ => [SCStream t ThenSetNextSound]
  | Undefined :: _ => [TypeError]
  | [] => []
  end.

(** What the player has no business with: the models, the stack, the
    Undo button and the stored snapshot, and the playlist it plays. *)
Definition player_keeps (w w' : World) : Prop :=
  heap w' = heap w /\ myPlaylists w' = myPlaylists w /\
  History w' = History w /\ undoButton w' = undoButton w /\
  localStorage w' = localStorage w /\
  playlist (player w') = playlist (player w).

(** *** The playlist view *)

(** [PlaylistView] keeps in [this.tracks] the rendered entries of the
    playlist, in display order; an entry is known here by the track it
    renders.  [None] stands for a thrown exception. *)

(** [this.tracks[index]]. *)
Definition view_get (l : list JsVal) (i : Z) : option JsVal :=
  if (i <? 0)%Z then None else nth_error l (Z.to_nat i).

(** [PlaylistView.prototype.addTrack]: rendering reads [track.user], which
    throws on [undefined]. *)
Definition PlaylistView_addTrack (track : JsVal) (l : list JsVal)
  : option (list JsVal) :=
  match track with
  | Undefined => None
  | TrackObj _ => Some (push l track)
  end.

(** [PlaylistView.prototype.deleteTrack]: [removeChild] throws when
    [this.tracks[index]] is [undefined]. *)
Definition PlaylistView_deleteTrack (i : Z) (l : list JsVal)
  : option (list JsVal) :=
  match view_get l i with
  | None => None
  | Some _ => Some (splice_delete1 l i)
  end.

(** [PlaylistView.prototype.moveTrack]. *)
Definition PlaylistView_moveTrack (i target : Z) (l : list JsVal)
  : option (list JsVal) :=
  match view_get l i with
  | None => None
  | Some newTrack => Some (splice_insert (splice_delete1 l i) target newTrack)
  end.

(** The callbacks the constructor of view [v] installs in [onAddTrack],
    [onDeleteTrack] and [onMoveTrack] pass their arguments on to these
    methods; other notifications do not reach the view. *)
Definition view_event (v : nat) (e : Event) (l : option (list JsVal))
  : option (list JsVal) :=
  match l with
  | None => None
  | Some l =>
      match e with
      | Notify OnAddTrack (ViewCallback v') [AVal track] _ =>
          if Nat.eqb v' v then PlaylistView_addTrack track l else Some l
      | Notify OnDeleteTrack (ViewCallback v') [ANum i] _ =>
          if Nat.eqb v' v then PlaylistView_deleteTrack i l else Some l
      | Notify OnMoveTrack (ViewCallback v') [ANum i; ANum target] _ =>
          if Nat.eqb v' v then PlaylistView_moveTrack i target l else Some l
      | _ => Some l
      end
  end.

Definition view_after (v : nat) (es : list Event) (l : list JsVal)
  : option (list JsVal) :=
  fold_left (fun l e => view_event v e l) es (Some l).

(** View [v] is installed on playlist [pl]. *)
Definition view_installed (v : nat) (pl : PlaylistRef) (w : World) : Prop :=
  onAddTrack (heap w pl) = Some (ViewCallback v) /\
  onDeleteTrack (heap w pl) = Some (ViewCallback v) /\
  onMoveTrack (heap w pl) = Some (ViewCallback v).

(** The calls on which the view's methods find the entry they are told
    about. *)
Definition view_can_follow (m : Mutator) (w : World) : Prop :=
  match m with
  | AddTrack _ track => track <> Undefined
  | DeleteTrack this track => In track (tracks (heap w this))
  | MoveTrack this from to =>
      from = to \/
      (0 <= from < Z.of_nat (List.length (tracks (heap w this))))%Z
  | _ => True
  end.

Definition with_onDeleteTrack (c : option Callback) (p : Playlist) : Playlist :=
  mkPlaylist (title p) (description p) (tracks p) (onTitleChange p)
             (onDescriptionChange p) (onTracksChange p) (onAddTrack p)
             c (onMoveTrack p).

Definition with_onMoveTrack (c : option Callback) (p : Playlist) : Playlist :=
  mkPlaylist (title p) (description p) (tracks p) (onTitleChange p)
             (onDescriptionChange p) (onTracksChange p) (onAddTrack p)
             (onDeleteTrack p) c.

(** The playlist view 1 of playlist 0 is open while track 0 plays. *)
Definition world_with_view : World :=
  update_playlist 0 (with_onMoveTrack (Some (ViewCallback 1)))
    (update_playlist 0 (with_onDeleteTrack (Some (ViewCallback 1))) world_viewed).

(* ================================================================== *)
(** ** Array lemmas *)

Lemma relativeStart_nat (len k : nat) :
  relativeStart len (Z.of_nat k) = Nat.min k len.
Proof.
  unfold relativeStart.
  destruct (Z.ltb_spec (Z.of_nat k) 0) as [H | H]; [lia |].
  now rewrite Nat2Z.id.
Qed.

Lemma relativeStart_minus1 (len : nat) :
  relativeStart len (-1) = Nat.pred len.
Proof. unfold relativeStart; simpl. lia. Qed.

Section ArrayFacts.
Context {A : Type}.
Variable eqb : A -> A -> bool.
Hypothesis eqb_eq : forall a b, eqb a b = true <-> a = b.

Lemma eqb_refl' (a : A) : eqb a a = true.
Proof. now apply eqb_eq. Qed.

Lemma eqb_neq (a b : A) : a <> b -> eqb a b = false.
Proof.
  intros H. destruct (eqb a b) eqn:E; [|reflexivity].
  apply eqb_eq in E. contradiction.
Qed.

Lemma indexOf_from_absent (l : list A) (x : A) (i : Z) :
  ~ In x l -> indexOf_from eqb l x i = (-1)%Z.
Proof.
  revert i. induction l as [|y l IH]; intros i Hn; simpl; [reflexivity|].
  rewrite eqb_neq.
  - apply IH. intros Hin. apply Hn. now right.
  - intros ->. apply Hn. now left.
Qed.

Lemma indexOf_from_first (l1 l2 : list A) (x : A) (i : Z) :
  ~ In x l1 ->
  indexOf_from eqb (l1 ++ x :: l2) x i = (i + Z.of_nat (List.length l1))%Z.
Proof.
  revert i. induction l1 as [|y l1 IH]; intros i Hn; simpl.
  - rewrite eqb_refl'. lia.
  - rewrite eqb_neq.
    + rewrite IH; [lia|]. intros Hin. apply Hn. now right.
    + intros ->. apply Hn. now left.
Qed.

Lemma indexOf_absent (l : list A) (x : A) :
  ~ In x l -> indexOf eqb l x = (-1)%Z.
Proof. apply indexOf_from_absent. Qed.

Lemma indexOf_first (l1 l2 : list A) (x : A) :
  ~ In x l1 -> indexOf eqb (l1 ++ x :: l2) x = Z.of_nat (List.length l1).
Proof. intros H. unfold indexOf. now rewrite indexOf_from_first. Qed.

Lemma In_first_split (x : A) (l : list A) :
  In x l -> exists l1 l2, l = l1 ++ x :: l2 /\ ~ In x l1.
Proof.
  induction l as [|y l IH]; intros Hin; [destruct Hin|].
  destruct (eqb y x) eqn:E.
  - apply eqb_eq in E. subst y. exists [], l. split; [reflexivity|]. intros [].
  - assert (Hne : y <> x).
    { intros ->. rewrite eqb_refl' in E. discriminate. }
    destruct Hin as [-> | Hin]; [contradiction|].
    destruct (IH Hin) as (l1 & l2 & -> & Hn).
    exists (y :: l1), l2. split; [reflexivity|].
    intros [H | H]; [contradiction | now apply Hn].
Qed.

Lemma remove_first_split (x : A) (l1 l2 : list A) :
  ~ In x l1 -> remove_first eqb x (l1 ++ x :: l2) = l1 ++ l2.
Proof.
  induction l1 as [|y l1 IH]; intros Hn; simpl.
  - now rewrite eqb_refl'.
  - rewrite eqb_neq.
    + f_equal. apply IH. intros H. apply Hn. now right.
    + intros ->. apply Hn. now left.
Qed.

Lemma remove_first_absent (x : A) (l : list A) :
  ~ In x l -> remove_first eqb x l = l.
Proof.
  induction l as [|y l IH]; intros Hn; simpl; [reflexivity|].
  rewrite eqb_neq.
  - f_equal. apply IH. intros H. apply Hn. now right.
  - intros ->. apply Hn. now left.
Qed.

Lemma splice_delete1_at (l1 l2 : list A) (x : A) :
  splice_delete1 (l1 ++ x :: l2) (Z.of_nat (List.length l1)) = l1 ++ l2.
Proof.
  unfold splice_delete1. rewrite relativeStart_nat, length_app. simpl.
  replace (Nat.min (List.length l1) (List.length l1 + S (List.length l2)))
    with (List.length l1) by lia.
  rewrite firstn_app, Nat.sub_diag, firstn_all. simpl. rewrite app_nil_r.
  f_equal. clear. induction l1 as [|y l1 IH]; [reflexivity | exact IH].
Qed.

Lemma splice_insert_at (l1 l2 : list A) (x : A) :
  splice_insert (l1 ++ l2) (Z.of_nat (List.length l1)) x = l1 ++ x :: l2.
Proof.
  unfold splice_insert. rewrite relativeStart_nat, length_app.
  replace (Nat.min (List.length l1) (List.length l1 + List.length l2))
    with (List.length l1) by lia.
  rewrite firstn_app, Nat.sub_diag, firstn_all. simpl. rewrite app_nil_r.
  rewrite skipn_app, skipn_all, Nat.sub_diag. reflexivity.
Qed.

(** Deleting a present element by [indexOf] removes its first
    occurrence. *)
Lemma splice_delete1_indexOf (x : A) (l : list A) :
  In x l -> splice_delete1 l (indexOf eqb l x) = remove_first eqb x l.
Proof.
  intros Hin. destruct (In_first_split x l Hin) as (l1 & l2 & -> & Hn).
  rewrite indexOf_first, splice_delete1_at, remove_first_split by assumption.
  reflexivity.
Qed.

(** Deleting an absent element: [indexOf] is -1 and [splice(-1, 1)]
    removes the last element. *)
Lemma splice_delete1_minus1 (l : list A) :
  splice_delete1 l (-1) = removelast l.
Proof.
  unfold splice_delete1. rewrite relativeStart_minus1.
  induction l as [|a l' _] using rev_ind; [reflexivity|].
  rewrite removelast_last, length_app.
  change (List.length [a]) with 1.
  replace (Nat.pred (List.length l' + 1)) with (List.length l') by lia.
  rewrite firstn_app, Nat.sub_diag, firstn_all.
  rewrite (skipn_all2 (n := S (List.length l'))).
  - simpl. now rewrite !app_nil_r.
  - rewrite length_app. simpl. lia.
Qed.

Lemma splice_delete1_absent (x : A) (l : list A) :
  ~ In x l -> splice_delete1 l (indexOf eqb l x) = removelast l.
Proof. intros H. rewrite indexOf_absent by assumption. apply splice_delete1_minus1. Qed.

(** Undoing an append of a new element. *)
Lemma splice_delete1_pushed (x : A) (l : list A) :
  ~ In x l -> splice_delete1 (push l x) (indexOf eqb (push l x) x) = l.
Proof.
  intros H. unfold push. rewrite indexOf_first by assumption.
  rewrite splice_delete1_at. apply app_nil_r.
Qed.
End ArrayFacts.

(** *** Moving an element inside the array *)

Lemma array_get_at (l1 l2 : list JsVal) (x : JsVal) :
  array_get (l1 ++ x :: l2) (Z.of_nat (List.length l1)) = x.
Proof.
  unfold array_get.
  destruct (Z.ltb_spec (Z.of_nat (List.length l1)) 0) as [H | H]; [lia |].
  rewrite Nat2Z.id, app_nth2, Nat.sub_diag by lia. reflexivity.
Qed.

Lemma split_at {A : Type} (l : list A) (k : nat) :
  k <= List.length l -> exists l1 l2, l = l1 ++ l2 /\ List.length l1 = k.
Proof.
  intros H. exists (firstn k l), (skipn k l). split.
  - symmetry. apply firstn_skipn.
  - rewrite length_firstn. lia.
Qed.

Lemma split_nth (l : list JsVal) (k : nat) :
  k < List.length l ->
  exists l1 x l2, l = l1 ++ x :: l2 /\ List.length l1 = k.
Proof.
  intros H. destruct (nth_split l Undefined H) as (l1 & l2 & E & Hl).
  exists l1, (nth k l Undefined), l2. split; assumption.
Qed.

(** Within range, [moveTrack(from, to)] followed by [moveTrack(to, from)]
    gives back the array. *)
Lemma move_roundtrip (l : list JsVal) (from to : Z) :
  (0 <= from < Z.of_nat (List.length l))%Z ->
  (0 <= to < Z.of_nat (List.length l))%Z ->
  let x := array_get l from in
  let m := splice_insert (splice_delete1 l from) to x in
  array_get m to = x /\
  splice_insert (splice_delete1 m to) from (array_get m to) = l.
Proof.
  intros Hf Ht.
  destruct (split_nth l (Z.to_nat from)) as (l1 & x & l2 & -> & Hl1); [lia|].
  assert (Ef : from = Z.of_nat (List.length l1)) by lia.
  rewrite Ef. rewrite array_get_at, splice_delete1_at. cbv zeta.
  rewrite length_app in Ht. simpl in Ht.
  destruct (split_at (l1 ++ l2) (Z.to_nat to)) as (r1 & r2 & Er & Hr1).
  { rewrite length_app. lia. }
  assert (Et : to = Z.of_nat (List.length r1)) by lia.
  rewrite Et, Er.
  rewrite splice_insert_at, array_get_at, splice_delete1_at.
  split; [reflexivity|].
  rewrite <- Er. apply splice_insert_at.
Qed.

(** Within range, the start positions of both [splice] calls are the
    given indices. *)
Lemma move_in_range (l : list JsVal) (from to : Z) :
  (0 <= from < Z.of_nat (List.length l))%Z ->
  (0 <= to < Z.of_nat (List.length l))%Z ->
  let rest := firstn (Z.to_nat from) l ++ skipn (S (Z.to_nat from)) l in
  splice_insert (splice_delete1 l from) to (array_get l from)
  = firstn (Z.to_nat to) rest ++ nth (Z.to_nat from) l Undefined
      :: skipn (Z.to_nat to) rest.
Proof.
  intros Hf Ht rest.
  assert (Hd : splice_delete1 l from = rest).
  { unfold splice_delete1, rest.
    rewrite <- (Z2Nat.id from) at 1 2 by lia. rewrite relativeStart_nat.
    replace (Nat.min (Z.to_nat from) (List.length l)) with (Z.to_nat from) by lia.
    reflexivity. }
  rewrite Hd. unfold splice_insert.
  assert (Hlen : List.length rest = List.length l - 1).
  { unfold rest. rewrite length_app, length_firstn, length_skipn. lia. }
  rewrite <- (Z2Nat.id to) at 1 2 by lia. rewrite relativeStart_nat.
  replace (Nat.min (Z.to_nat to) (List.length rest)) with (Z.to_nat to) by lia.
  unfold array_get.
  destruct (Z.ltb_spec from 0) as [H | H]; [lia | reflexivity].
Qed.


Lemma Nat_eqb_eq' (a b : nat) : Nat.eqb a b = true <-> a = b.
Proof. apply Nat.eqb_eq. Qed.

Lemma JsVal_eqb_eq (a b : JsVal) : JsVal_eqb a b = true <-> a = b.
Proof.
  destruct a as [|x], b as [|y]; simpl; split; intros H;
    try reflexivity; try discriminate.
  - apply Nat.eqb_eq in H. now subst.
  - injection H as ->. apply Nat.eqb_refl.
Qed.


(* ================================================================== *)
(** ** Frame lemmas: what each helper leaves alone, and what it emits *)

Lemma emitted_app (w w' : World) (es : list Event) :
  trace w' = trace w ++ es -> emitted w w' = es.
Proof.
  intros H. unfold emitted. rewrite H.
  rewrite skipn_app, skipn_all, Nat.sub_diag. reflexivity.
Qed.

Lemma Player_stop_heap w : heap (Player_stop w) = heap w.
Proof. unfold Player_stop, update_player. simpl. destruct (sound (player w)); reflexivity. Qed.

Lemma Player_stop_myPlaylists w : myPlaylists (Player_stop w) = myPlaylists w.
Proof. unfold Player_stop, update_player. simpl. destruct (sound (player w)); reflexivity. Qed.

Lemma Player_stop_History w : History (Player_stop w) = History w.
Proof. unfold Player_stop, update_player. simpl. destruct (sound (player w)); reflexivity. Qed.

Lemma Player_stop_localStorage w : localStorage (Player_stop w) = localStorage w.
Proof. unfold Player_stop, update_player. simpl. destruct (sound (player w)); reflexivity. Qed.

Lemma Player_stop_trace w : trace (Player_stop w) = trace w ++ stop_events w.
Proof.
  unfold Player_stop, stop_events, update_player. simpl.
  destruct (sound (player w)); simpl; [reflexivity | now rewrite app_nil_r].
Qed.

Lemma fire_heap this slot cb args w : heap (fire this slot cb args w) = heap w.
Proof.
  destruct cb as [[v|]|]; unfold fire, run_callback;
    [reflexivity | rewrite Player_stop_heap; reflexivity | reflexivity].
Qed.

Lemma fire_myPlaylists this slot cb args w :
  myPlaylists (fire this slot cb args w) = myPlaylists w.
Proof.
  destruct cb as [[v|]|]; unfold fire, run_callback;
    [reflexivity | rewrite Player_stop_myPlaylists; reflexivity | reflexivity].
Qed.

Lemma fire_History this slot cb args w :
  History (fire this slot cb args w) = History w.
Proof.
  destruct cb as [[v|]|]; unfold fire, run_callback;
    [reflexivity | rewrite Player_stop_History; reflexivity | reflexivity].
Qed.

Lemma fire_localStorage this slot cb args w :
  localStorage (fire this slot cb args w) = localStorage w.
Proof.
  destruct cb as [[v|]|]; unfold fire, run_callback;
    [reflexivity | rewrite Player_stop_localStorage; reflexivity | reflexivity].
Qed.

Lemma fire_trace this slot cb args w :
  trace (fire this slot cb args w) = trace w ++ fire_events this slot cb args w.
Proof.
  destruct cb as [[v|]|]; unfold fire, fire_events, run_callback.
  - reflexivity.
  - rewrite Player_stop_trace. cbn [trace emit]. rewrite <- app_assoc. reflexivity.
  - now rewrite app_nil_r.
Qed.

Lemma History_update_heap w : heap (History_update w) = heap w.
Proof.
  unfold History_update.
  destruct (0 <? _)%nat; [destruct (nth_error _ _)|]; reflexivity.
Qed.

Lemma History_update_myPlaylists w : myPlaylists (History_update w) = myPlaylists w.
Proof.
  unfold History_update.
  destruct (0 <? _)%nat; [destruct (nth_error _ _)|]; reflexivity.
Qed.

Lemma History_update_History w : History (History_update w) = History w.
Proof.
  unfold History_update.
  destruct (0 <? _)%nat; [destruct (nth_error _ _)|]; reflexivity.
Qed.

Lemma History_update_trace w : trace (History_update w) = trace w.
Proof.
  unfold History_update.
  destruct (0 <? _)%nat; [destruct (nth_error _ _)|]; reflexivity.
Qed.

Lemma History_log_heap d rv w : heap (History_log d rv w) = heap w.
Proof.
  unfold History_log. cbn [History emit]. destruct (negb _); [|reflexivity].
  now rewrite History_update_heap.
Qed.

Lemma History_log_myPlaylists d rv w :
  myPlaylists (History_log d rv w) = myPlaylists w.
Proof.
  unfold History_log. cbn [History emit]. destruct (negb _); [|reflexivity].
  now rewrite History_update_myPlaylists.
Qed.

(** [History.log] pushes exactly when no undo is running. *)
Lemma History_log_History d rv w :
  History (History_log d rv w) =
  if duringUndo (History w) then History w
  else mkHistory (records (History w) ++ [mkRecord d rv]) false.
Proof.
  unfold History_log. cbn [History emit].
  destruct (duringUndo (History w)); cbn [negb].
  - reflexivity.
  - rewrite History_update_History. reflexivity.
Qed.

Lemma History_log_trace d rv w :
  trace (History_log d rv w) = trace w ++ [LogCall d (negb (duringUndo (History w)))].
Proof.
  unfold History_log. cbn [History emit]. destruct (negb _).
  - rewrite History_update_trace. reflexivity.
  - reflexivity.
Qed.

Lemma save_heap w : heap (PlaylistSet_save w) = heap w.
Proof. reflexivity. Qed.

Lemma save_myPlaylists w : myPlaylists (PlaylistSet_save w) = myPlaylists w.
Proof. reflexivity. Qed.

Lemma save_History w : History (PlaylistSet_save w) = History w.
Proof. reflexivity. Qed.

Lemma save_trace w : trace (PlaylistSet_save w) = trace w ++ [Saved (saved_data w)].
Proof. reflexivity. Qed.

(** Field updates commute with the projections of other fields. *)
Lemma heap_update_playlist this f w :
  heap (update_playlist this f w) = heap_with this f (heap w).
Proof. reflexivity. Qed.

Lemma heap_with_same this f h : heap_with this f h this = f (h this).
Proof. unfold heap_with. now rewrite Nat.eqb_refl. Qed.

Lemma heap_with_at this f h q :
  heap_with this f h q = if Nat.eqb q this then f (h this) else h q.
Proof. reflexivity. Qed.

Lemma myPlaylists_update_playlist this f w :
  myPlaylists (update_playlist this f w) = myPlaylists w.
Proof. reflexivity. Qed.

Lemma History_update_playlist this f w :
  History (update_playlist this f w) = History w.
Proof. reflexivity. Qed.

Lemma trace_update_playlist this f w :
  trace (update_playlist this f w) = trace w.
Proof. reflexivity. Qed.

Lemma heap_set_myPlaylists s w : heap (set_myPlaylists s w) = heap w.
Proof. reflexivity. Qed.

Lemma myPlaylists_set_myPlaylists s w : myPlaylists (set_myPlaylists s w) = s.
Proof. reflexivity. Qed.

Lemma History_set_myPlaylists s w : History (set_myPlaylists s w) = History w.
Proof. reflexivity. Qed.

Lemma trace_set_myPlaylists s w : trace (set_myPlaylists s w) = trace w.
Proof. reflexivity. Qed.

Lemma heap_set_window_index i w : heap (set_window_index i w) = heap w.
Proof. reflexivity. Qed.

Lemma myPlaylists_set_window_index i w :
  myPlaylists (set_window_index i w) = myPlaylists w.
Proof. reflexivity. Qed.

Lemma History_set_window_index i w : History (set_window_index i w) = History w.
Proof. reflexivity. Qed.

Lemma trace_set_window_index i w : trace (set_window_index i w) = trace w.
Proof. reflexivity. Qed.

Lemma heap_set_History h w : heap (set_History h w) = heap w.
Proof. reflexivity. Qed.

Lemma myPlaylists_set_History h w : myPlaylists (set_History h w) = myPlaylists w.
Proof. reflexivity. Qed.

Lemma History_set_History h w : History (set_History h w) = h.
Proof. reflexivity. Qed.

Lemma trace_set_History h w : trace (set_History h w) = trace w.
Proof. reflexivity. Qed.

Create Rewrite HintDb frame.
#[global] Hint Rewrite
  Player_stop_heap Player_stop_myPlaylists Player_stop_History
  fire_heap fire_myPlaylists fire_History
  History_update_heap History_update_myPlaylists History_update_History
  History_log_heap History_log_myPlaylists History_log_History
  save_heap save_myPlaylists save_History
  heap_update_playlist myPlaylists_update_playlist History_update_playlist
  heap_with_same
  heap_set_myPlaylists myPlaylists_set_myPlaylists History_set_myPlaylists
  heap_set_window_index myPlaylists_set_window_index History_set_window_index
  heap_set_History myPlaylists_set_History History_set_History : frame.

Create Rewrite HintDb traces.
#[global] Hint Rewrite
  save_trace History_log_trace fire_trace History_update_trace
  trace_update_playlist trace_set_myPlaylists trace_set_window_index
  trace_set_History : traces.

Lemma fire_events_pre this cb args w :
  Forall (pre_event (observe this w)) (fire_events this OnTracksChange cb args w).
Proof.
  destruct cb as [[v|]|]; cbn [fire_events]; repeat constructor.
  unfold stop_events. destruct (sound (player w)); repeat constructor.
Qed.

Lemma fire_events_post this slot cb args w seen :
  slot <> OnTracksChange -> observe this w = seen ->
  Forall (post_event seen) (fire_events this slot cb args w).
Proof.
  intros Hs <-.
  destruct cb as [[v|]|]; cbn [fire_events]; repeat constructor; try assumption.
  unfold stop_events. destruct (sound (player w)); repeat constructor.
Qed.

Lemma saved_data_ext w1 w2 :
  heap w1 = heap w2 -> myPlaylists w1 = myPlaylists w2 ->
  saved_data w1 = saved_data w2.
Proof. intros H1 H2. unfold saved_data. now rewrite H1, H2. Qed.

Lemma observe_ext this w1 w2 :
  heap w1 = heap w2 -> myPlaylists w1 = myPlaylists w2 ->
  observe this w1 = observe this w2.
Proof. intros H1 H2. unfold observe. now rewrite H1, H2. Qed.

(* ================================================================== *)
(** ** What each mutator does to the models, the stack and the trace *)

Ltac frame := cbv zeta; unfold logged; autorewrite with frame.
Ltac traces := cbv zeta; autorewrite with traces.

Lemma Playlist_setTitle_spec this t w :
  let w' := Playlist_setTitle this t w in
  heap w' = heap_with this (with_title t) (heap w) /\
  myPlaylists w' = myPlaylists w /\
  History w' = logged w "Set Description" (RevSetTitle this (title (heap w this))).
Proof. unfold Playlist_setTitle. frame. repeat split. Qed.

Lemma Playlist_setDescription_spec this d w :
  let w' := Playlist_setDescription this d w in
  heap w' = heap_with this (with_description d) (heap w) /\
  myPlaylists w' = myPlaylists w /\
  History w' = logged w "Set Description"
                      (RevSetDescription this (description (heap w this))).
Proof. unfold Playlist_setDescription. frame. repeat split. Qed.

Lemma Playlist_addTrack_spec this track w :
  let w' := Playlist_addTrack this track w in
  heap w' = heap_with this (fun p => with_tracks (push (tracks p) track) p) (heap w) /\
  myPlaylists w' = myPlaylists w /\
  History w' = logged w "Add Track" (RevDeleteTrack this track).
Proof. unfold Playlist_addTrack. frame. repeat split. Qed.

Lemma Playlist_deleteTrack_spec this track w :
  let w' := Playlist_deleteTrack this track w in
  heap w' = heap_with this
              (fun p => with_tracks
                          (splice_delete1 (tracks p)
                             (indexOf JsVal_eqb (tracks (heap w this)) track)) p)
              (heap w) /\
  myPlaylists w' = myPlaylists w /\
  History w' = logged w "Delete Track" (RevAddTrack this track).
Proof. unfold Playlist_deleteTrack. frame. repeat split. Qed.

Lemma Playlist_moveTrack_spec this from to w :
  let w' := Playlist_moveTrack this from to w in
  (forall q, heap w' q =
             if (from =? to)%Z then heap w q
             else if Nat.eqb q this
             then with_tracks
                    (splice_insert (splice_delete1 (tracks (heap w this)) from) to
                                   (array_get (tracks (heap w this)) from))
                    (heap w this)
             else heap w q) /\
  myPlaylists w' = myPlaylists w /\
  History w' = if (from =? to)%Z then History w
               else logged w "Move Track" (RevMoveTrack this to from).
Proof.
  unfold Playlist_moveTrack. cbv zeta.
  destruct (from =? to)%Z; frame.
  - repeat split.
  - repeat split.
    intros q. rewrite !heap_with_at, Nat.eqb_refl.
    destruct (Nat.eqb q this); reflexivity.
Qed.

Lemma PlaylistSet_addPlaylist_spec p w :
  let w' := PlaylistSet_addPlaylist p w in
  heap w' = heap w /\
  myPlaylists w' = with_playlists (push (playlists (myPlaylists w)) p) (myPlaylists w) /\
  History w' = logged w "Add Playlist" (RevDeletePlaylist p).
Proof. unfold PlaylistSet_addPlaylist. frame. repeat split. Qed.

Lemma PlaylistSet_deletePlaylist_spec p w :
  let w' := PlaylistSet_deletePlaylist p w in
  heap w' = heap w /\
  myPlaylists w' =
    with_playlists (splice_delete1 (playlists (myPlaylists w))
                                   (indexOf Nat.eqb (playlists (myPlaylists w)) p))
                   (myPlaylists w) /\
  History w' = logged w "Delete Playlist" (RevAddPlaylist p).
Proof. unfold PlaylistSet_deletePlaylist. frame. repeat split. Qed.

(** *** The trace of a mutator call *)

Lemma shape_pre_post (t a b : list Event) (c d : Event) :
  (((t ++ a) ++ b) ++ [c]) ++ [d] = t ++ a ++ b ++ [c; d].
Proof. rewrite <- !app_assoc. reflexivity. Qed.

Lemma shape_post (t b : list Event) (c d : Event) :
  ((t ++ b) ++ [c]) ++ [d] = t ++ [] ++ b ++ [c; d].
Proof. rewrite <- !app_assoc. reflexivity. Qed.

Lemma shape_post2 (t b1 b2 : list Event) (c d : Event) :
  (((t ++ b1) ++ b2) ++ [c]) ++ [d] = t ++ [] ++ (b1 ++ b2) ++ [c; d].
Proof. rewrite <- !app_assoc. reflexivity. Qed.

Lemma shape_pre (t a : list Event) : t ++ a = t ++ a ++ [] ++ [].
Proof. now rewrite !app_nil_r. Qed.

Lemma tail_eq d b b' s s' :
  b = b' -> s = s' -> [LogCall d b; Saved s] = [LogCall d b'; Saved s'].
Proof. now intros -> ->. Qed.

Lemma ex_in_app_l (a : list Arg -> Event) (l1 l2 : list Event) :
  (exists args, In (a args) l1) -> exists args, In (a args) (l1 ++ l2).
Proof. intros (args & Hin). exists args. apply in_or_app. now left. Qed.

Lemma ex_in_app_r (a : list Arg -> Event) (l1 l2 : list Event) :
  (exists args, In (a args) l2) -> exists args, In (a args) (l1 ++ l2).
Proof. intros (args & Hin). exists args. apply in_or_app. now right. Qed.

Ltac same_models M := apply observe_ext || apply saved_data_ext; unfold M; frame; reflexivity.

Ltac tail_of M :=
  unfold tail_events; cbn [logs mutate]; eexists; apply tail_eq;
  [ frame; reflexivity | apply saved_data_ext; unfold M; frame; reflexivity ].

Ltac post_head M Hr :=
  frame; cbn [onChange onDeletePlaylist with_playlists onTitleChange
              onDescriptionChange onAddTrack onDeleteTrack onMoveTrack
              with_title with_description with_tracks];
  rewrite Hr; eexists; left; f_equal;
  apply observe_ext; unfold M; frame; reflexivity.

(** The shape of what a mutator call appends to the trace: the hook
    called before the mutation, the hooks called after it, then
    [History.log] and [save]. *)
Lemma mutate_emitted (m : Mutator) (w : World) :
  exists pre post tl,
    trace (mutate m w) = trace w ++ pre ++ post ++ tl /\
    Forall (pre_event (observe (self m) w)) pre /\
    Forall (post_event (observe (self m) (mutate m w))) post /\
    tail_events m w tl /\
    (forall s c, In s (pre_slots m) -> registered s (self m) w = Some c ->
                 exists args, In (Notify s c args (observe (self m) w)) pre) /\
    (forall s c, In s (post_slots m) -> registered s (self m) w = Some c ->
                 exists args,
                   In (Notify s c args (observe (self m) (mutate m w))) post).
Proof.
  destruct m as [p | p | this t | this d | this track | this track | this from to];
    cbn [mutate self pre_slots post_slots].
  - (* addPlaylist *)
    eexists _, _, _. split; [|split; [|split; [|split; [|split]]]].
    + unfold PlaylistSet_addPlaylist. traces. apply shape_post.
    + constructor.
    + apply fire_events_post; [discriminate|]. same_models PlaylistSet_addPlaylist.
    + tail_of PlaylistSet_addPlaylist.
    + intros s c [].
    + intros s c [<- | []] Hr. cbn [registered] in Hr.
      post_head PlaylistSet_addPlaylist Hr.
  - (* deletePlaylist *)
    eexists _, _, _. split; [|split; [|split; [|split; [|split]]]].
    + unfold PlaylistSet_deletePlaylist. traces. apply shape_post2.
    + constructor.
    + apply Forall_app. split; (apply fire_events_post; [discriminate|]);
        same_models PlaylistSet_deletePlaylist.
    + tail_of PlaylistSet_deletePlaylist.
    + intros s c [].
    + intros s c [<- | [<- | []]] Hr; cbn [registered] in Hr.
      * apply ex_in_app_l. post_head PlaylistSet_deletePlaylist Hr.
      * apply ex_in_app_r. post_head PlaylistSet_deletePlaylist Hr.
  - (* setTitle *)
    eexists _, _, _. split; [|split; [|split; [|split; [|split]]]].
    + unfold Playlist_setTitle. traces. apply shape_post.
    + constructor.
    + apply fire_events_post; [discriminate|]. same_models Playlist_setTitle.
    + tail_of Playlist_setTitle.
    + intros s c [].
    + intros s c [<- | []] Hr. cbn [registered] in Hr.
      post_head Playlist_setTitle Hr.
  - (* setDescription *)
    eexists _, _, _. split; [|split; [|split; [|split; [|split]]]].
    + unfold Playlist_setDescription. traces. apply shape_post.
    + constructor.
    + apply fire_events_post; [discriminate|]. same_models Playlist_setDescription.
    + tail_of Playlist_setDescription.
    + intros s c [].
    + intros s c [<- | []] Hr. cbn [registered] in Hr.
      post_head Playlist_setDescription Hr.
  - (* addTrack *)
    eexists _, _, _. split; [|split; [|split; [|split; [|split]]]].
    + unfold Playlist_addTrack. traces. apply shape_pre_post.
    + apply fire_events_pre.
    + apply fire_events_post; [discriminate|]. same_models Playlist_addTrack.
    + tail_of Playlist_addTrack.
    + intros s c [<- | []] Hr. cbn [registered] in Hr.
      rewrite Hr. eexists. left. reflexivity.
    + intros s c [<- | []] Hr. cbn [registered] in Hr.
      post_head Playlist_addTrack Hr.
  - (* deleteTrack *)
    eexists _, _, _. split; [|split; [|split; [|split; [|split]]]].
    + unfold Playlist_deleteTrack. traces. apply shape_pre_post.
    + apply fire_events_pre.
    + apply fire_events_post; [discriminate|]. same_models Playlist_deleteTrack.
    + tail_of Playlist_deleteTrack.
    + intros s c [<- | []] Hr. cbn [registered] in Hr.
      rewrite Hr. eexists. left. reflexivity.
    + intros s c [<- | []] Hr. cbn [registered] in Hr.
      post_head Playlist_deleteTrack Hr.
  - (* moveTrack *)
    destruct (from =? to)%Z eqn:E.
    + exists (fire_events (Some this) OnTracksChange
                          (onTracksChange (heap w this)) [] w), [], [].
      split; [|split; [|split; [|split; [|split]]]].
      * unfold Playlist_moveTrack. cbv zeta. rewrite E. traces. apply shape_pre.
      * apply fire_events_pre.
      * constructor.
      * unfold tail_events. cbn [logs]. rewrite E. reflexivity.
      * intros s c [<- | []] Hr. cbn [registered] in Hr.
        rewrite Hr. eexists. left. reflexivity.
      * intros s c [].
    + eexists _, _, _. split; [|split; [|split; [|split; [|split]]]].
      * unfold Playlist_moveTrack. cbv zeta. rewrite E. traces. apply shape_pre_post.
      * apply fire_events_pre.
      * apply fire_events_post; [discriminate|].
        apply observe_ext; unfold Playlist_moveTrack; cbv zeta; rewrite E;
          frame; reflexivity.
      * unfold tail_events. cbn [logs mutate]. rewrite E. cbn [negb].
        eexists. apply tail_eq; [frame; reflexivity|].
        apply saved_data_ext; unfold Playlist_moveTrack; cbv zeta; rewrite E;
          frame; reflexivity.
      * intros s c [<- | []] Hr. cbn [registered] in Hr.
        rewrite Hr. eexists. left. reflexivity.
      * intros s c [<- | []] Hr. cbn [registered] in Hr.
        frame. cbn [onMoveTrack with_tracks].
        rewrite Hr. eexists. left. f_equal.
        apply observe_ext; unfold Playlist_moveTrack; cbv zeta; rewrite E;
          frame; reflexivity.
Qed.

(* ================================================================== *)
(** ** History.undo *)

(** [History.undo] on a stack whose top is [r]. *)
Lemma History_undo_top rs r b w :
  History w = mkHistory (rs ++ [r]) b ->
  History_undo w =
  History_update
    (set_duringUndo false
       (call_revert (revert r) (set_History (mkHistory rs true) w))).
Proof.
  intros H. unfold History_undo. rewrite H. cbn [records duringUndo].
  rewrite length_app, Nat.add_comm. cbn [List.length Nat.add Nat.eqb].
  replace (S (List.length rs) - 1) with (List.length rs) by lia.
  rewrite nth_error_app2, Nat.sub_diag by lia. cbn [nth_error].
  rewrite removelast_last. reflexivity.
Qed.

Lemma History_undo_empty w :
  records (History w) = [] -> History_undo w = w.
Proof. intros H. unfold History_undo. rewrite H. reflexivity. Qed.

Lemma call_revert_mutate rv w : call_revert rv w = mutate (mutator_of rv) w.
Proof. destruct rv; reflexivity. Qed.

(** The stack after a mutator call. *)
Lemma mutate_History m w :
  exists d rv,
    History (mutate m w) = if logs m then logged w d rv else History w.
Proof.
  destruct m as [p | p | this t | this d | this track | this track | this from to];
    cbn [mutate logs].
  - do 2 eexists. apply PlaylistSet_addPlaylist_spec.
  - do 2 eexists. apply PlaylistSet_deletePlaylist_spec.
  - do 2 eexists. apply Playlist_setTitle_spec.
  - do 2 eexists. apply Playlist_setDescription_spec.
  - do 2 eexists. apply Playlist_addTrack_spec.
  - do 2 eexists. apply Playlist_deleteTrack_spec.
  - do 2 eexists.
    destruct (Playlist_moveTrack_spec this from to w) as (_ & _ & ->).
    destruct (from =? to)%Z; reflexivity.
Qed.

(** While an undo runs, no mutator changes the stack. *)
Lemma mutate_suppressed m w :
  duringUndo (History w) = true -> History (mutate m w) = History w.
Proof.
  intros H. destruct (mutate_History m w) as (d & rv & ->).
  unfold logged. rewrite H. now destruct (logs m).
Qed.

(** The stack after an undo: the top record is gone, nothing was added,
    and logging is enabled again. *)
Lemma History_undo_History rs r b w :
  History w = mkHistory (rs ++ [r]) b ->
  History (History_undo w) = mkHistory rs false.
Proof.
  intros H. rewrite (History_undo_top rs r b w H).
  rewrite History_update_History. unfold set_duringUndo.
  rewrite History_set_History, call_revert_mutate, mutate_suppressed; reflexivity.
Qed.

Lemma History_undo_heap rs r b w :
  History w = mkHistory (rs ++ [r]) b ->
  heap (History_undo w) = heap (call_revert (revert r) (set_History (mkHistory rs true) w)).
Proof.
  intros H. rewrite (History_undo_top rs r b w H).
  rewrite History_update_heap. reflexivity.
Qed.

Lemma History_undo_myPlaylists rs r b w :
  History w = mkHistory (rs ++ [r]) b ->
  myPlaylists (History_undo w) =
  myPlaylists (call_revert (revert r) (set_History (mkHistory rs true) w)).
Proof.
  intros H. rewrite (History_undo_top rs r b w H).
  rewrite History_update_myPlaylists. reflexivity.
Qed.

Lemma History_undo_trace rs r b w :
  History w = mkHistory (rs ++ [r]) b ->
  trace (History_undo w) =
  trace (call_revert (revert r) (set_History (mkHistory rs true) w)).
Proof.
  intros H. rewrite (History_undo_top rs r b w H).
  rewrite History_update_trace. reflexivity.
Qed.

Lemma heap_with_twice this f g h q :
  heap_with this g (heap_with this f h) q
  = if Nat.eqb q this then g (f (h this)) else h q.
Proof.
  rewrite heap_with_at, heap_with_same, heap_with_at.
  destruct (Nat.eqb q this); reflexivity.
Qed.

(* ================================================================== *)
(** ** Undo right after a mutator *)

Ltac undo_of Hspec Hd :=
  let Hh := fresh "Hh" in let Hs := fresh "Hs" in let HH := fresh "HH" in
  destruct Hspec as (Hh & Hs & HH);
  unfold logged in HH; rewrite Hd in HH;
  rewrite (History_undo_heap _ _ _ _ HH), (History_undo_myPlaylists _ _ _ _ HH);
  cbn [revert call_revert].

Ltac at_playlist q this :=
  rewrite ?heap_with_twice; destruct (Nat.eqb_spec q this); subst; reflexivity.

Lemma undo_addPlaylist p w :
  duringUndo (History w) = false -> admissible (AddPlaylist p) w ->
  restored_by_undo (AddPlaylist p) w.
Proof.
  intros Hd Hadm. unfold restored_by_undo. cbv zeta. cbn [mutate admissible] in *.
  undo_of (PlaylistSet_addPlaylist_spec p w) Hd.
  match goal with |- context [PlaylistSet_deletePlaylist p ?w2] =>
    destruct (PlaylistSet_deletePlaylist_spec p w2) as (Hh2 & Hs2 & _) end.
  rewrite Hh2, Hs2, heap_set_History, myPlaylists_set_History, Hh, Hs.
  cbn [playlists with_playlists].
  rewrite (splice_delete1_pushed Nat.eqb Nat_eqb_eq') by assumption.
  repeat split.
Qed.

Lemma undo_deletePlaylist p w :
  duringUndo (History w) = false -> admissible (DeletePlaylist p) w ->
  restored_by_undo (DeletePlaylist p) w.
Proof.
  intros Hd Hadm. unfold restored_by_undo. cbv zeta. cbn [mutate admissible] in *.
  undo_of (PlaylistSet_deletePlaylist_spec p w) Hd.
  match goal with |- context [PlaylistSet_addPlaylist p ?w2] =>
    destruct (PlaylistSet_addPlaylist_spec p w2) as (Hh2 & Hs2 & _) end.
  rewrite Hh2, Hs2, heap_set_History, myPlaylists_set_History, Hh, Hs.
  cbn [playlists with_playlists].
  rewrite (splice_delete1_indexOf Nat.eqb Nat_eqb_eq') by assumption.
  repeat split.
Qed.

Lemma undo_setTitle this t w :
  duringUndo (History w) = false -> restored_by_undo (SetTitle this t) w.
Proof.
  intros Hd. unfold restored_by_undo. cbv zeta. cbn [mutate].
  undo_of (Playlist_setTitle_spec this t w) Hd.
  match goal with |- context [Playlist_setTitle this ?t0 ?w2] =>
    destruct (Playlist_setTitle_spec this t0 w2) as (Hh2 & Hs2 & _) end.
  rewrite Hh2, Hs2, heap_set_History, myPlaylists_set_History, Hh, Hs.
  repeat split; intros q; at_playlist q this.
Qed.

Lemma undo_setDescription this d w :
  duringUndo (History w) = false -> restored_by_undo (SetDescription this d) w.
Proof.
  intros Hd. unfold restored_by_undo. cbv zeta. cbn [mutate].
  undo_of (Playlist_setDescription_spec this d w) Hd.
  match goal with |- context [Playlist_setDescription this ?t0 ?w2] =>
    destruct (Playlist_setDescription_spec this t0 w2) as (Hh2 & Hs2 & _) end.
  rewrite Hh2, Hs2, heap_set_History, myPlaylists_set_History, Hh, Hs.
  repeat split; intros q; at_playlist q this.
Qed.

Lemma undo_addTrack this track w :
  duringUndo (History w) = false -> admissible (AddTrack this track) w ->
  restored_by_undo (AddTrack this track) w.
Proof.
  intros Hd Hadm. unfold restored_by_undo. cbv zeta. cbn [mutate admissible] in *.
  undo_of (Playlist_addTrack_spec this track w) Hd.
  match goal with |- context [Playlist_deleteTrack this track ?w2] =>
    destruct (Playlist_deleteTrack_spec this track w2) as (Hh2 & Hs2 & _) end.
  rewrite Hh2, Hs2, !heap_set_History, myPlaylists_set_History, Hh, Hs.
  repeat split; intros q; try at_playlist q this.
  rewrite heap_with_twice, heap_with_same.
  destruct (Nat.eqb_spec q this); subst; [|reflexivity].
  cbn [tracks with_tracks].
  now rewrite (splice_delete1_pushed JsVal_eqb JsVal_eqb_eq).
Qed.

Lemma undo_deleteTrack this track w :
  duringUndo (History w) = false -> admissible (DeleteTrack this track) w ->
  restored_by_undo (DeleteTrack this track) w.
Proof.
  intros Hd Hadm. unfold restored_by_undo. cbv zeta. cbn [mutate admissible] in *.
  undo_of (Playlist_deleteTrack_spec this track w) Hd.
  match goal with |- context [Playlist_addTrack this track ?w2] =>
    destruct (Playlist_addTrack_spec this track w2) as (Hh2 & Hs2 & _) end.
  rewrite Hh2, Hs2, !heap_set_History, myPlaylists_set_History, Hh, Hs.
  repeat split; intros q; try at_playlist q this.
  rewrite heap_with_twice.
  destruct (Nat.eqb_spec q this); subst; [|reflexivity].
  cbn [tracks with_tracks]. unfold push.
  now rewrite (splice_delete1_indexOf JsVal_eqb JsVal_eqb_eq).
Qed.

Lemma undo_moveTrack this from to w :
  duringUndo (History w) = false -> admissible (MoveTrack this from to) w ->
  restored_by_undo (MoveTrack this from to) w.
Proof.
  intros Hd Hadm. unfold restored_by_undo. cbv zeta. cbn [mutate admissible] in *.
  destruct Hadm as (Hne & Hf & Ht).
  assert (E : (from =? to)%Z = false) by now apply Z.eqb_neq.
  assert (E' : (to =? from)%Z = false) by (apply Z.eqb_neq; congruence).
  pose proof (Playlist_moveTrack_spec this from to w) as Hspec.
  cbv zeta in Hspec. rewrite E in Hspec.
  undo_of Hspec Hd.
  match goal with |- context [Playlist_moveTrack this to from ?w2] =>
    pose proof (Playlist_moveTrack_spec this to from w2) as Hspec2 end.
  cbv zeta in Hspec2. rewrite E' in Hspec2.
  destruct Hspec2 as (Hh2 & Hs2 & _).
  rewrite Hs2, myPlaylists_set_History, Hs.
  repeat split; intros q; rewrite Hh2, !heap_set_History, !Hh, Nat.eqb_refl;
    destruct (Nat.eqb_spec q this); subst; try reflexivity.
  cbn [tracks with_tracks].
  exact (proj2 (move_roundtrip (tracks (heap w this)) from to Hf Ht)).
Qed.

(** C1 (amended): on admissible calls, one [History.undo] right after a
    mutator restores every title, every description, every track sequence
    and the playlist sequence; after [deleteTrack] / [deletePlaylist] the
    deleted entity is back at the end of its sequence. *)
Theorem undo_restores_models (m : Mutator) (w : World) :
  duringUndo (History w) = false ->
  admissible m w ->
  restored_by_undo m w.
Proof.
  intros Hd Hadm.
  destruct m as [p | p | this t | this d | this track | this track | this from to].
  - now apply undo_addPlaylist.
  - now apply undo_deletePlaylist.
  - now apply undo_setTitle.
  - now apply undo_setDescription.
  - now apply undo_addTrack.
  - now apply undo_deleteTrack.
  - now apply undo_moveTrack.
Qed.

(** The theorem at the scenario of the specification: [moveTrack(0, 2)]
    on [A, B, C, D]. *)
Lemma undo_restores_models_witness :
  restored_by_undo (MoveTrack 0 0 2) world_ABCD.
Proof.
  apply undo_restores_models.
  - reflexivity.
  - vm_compute. repeat split; discriminate.
Defined.

(** C1 as stated fails: [moveTrack(i, i)] logs nothing, so the undo that
    follows reverts the call before it.  Here the playlist holds [A]
    (just added); after [moveTrack(0, 0)] and one undo it is empty. *)
Lemma undo_after_moveTrack_same_index :
  let w := Playlist_addTrack 0 trackA initial_world in
  duringUndo (History w) = false /\
  tracks (heap w 0) = [trackA] /\
  tracks (heap (History_undo (Playlist_moveTrack 0 0 0 w)) 0) = [] /\
  ~ restored_by_undo (MoveTrack 0 0 0) w.
Proof.
  cbv zeta. repeat split.
  intros (_ & _ & _ & Ht). specialize (Ht 0). vm_compute in Ht. discriminate.
Qed.

(** Two more inputs outside [admissible].  A track object that is already
    in the playlist: the inverse [deleteTrack] removes its first
    occurrence, not the one just appended. *)
Example undo_after_addTrack_duplicate :
  let w := run [Call (AddTrack 0 trackA); Call (AddTrack 0 trackB)] initial_world in
  tracks (heap w 0) = [trackA; trackB] /\
  tracks (heap (History_undo (Playlist_addTrack 0 trackA w)) 0) = [trackB; trackA].
Proof. split; reflexivity. Qed.

(** An index past the end: [moveTrack(1, 7)] moves B to the end, and the
    inverse [moveTrack(7, 1)] inserts [undefined] at position 1. *)
Example undo_after_moveTrack_out_of_range :
  tracks (heap (Playlist_moveTrack 0 1 7 world_ABCD) 0)
  = [trackA; trackC; trackD; trackB] /\
  tracks (heap (History_undo (Playlist_moveTrack 0 1 7 world_ABCD)) 0)
  = [trackA; Undefined; trackC; trackD; trackB].
Proof. split; reflexivity. Qed.

(* ================================================================== *)
(** ** The undo stack *)

Lemma History_eta (h : HistoryNS) : h = mkHistory (records h) (duringUndo h).
Proof. now destruct h. Qed.

(** A non-empty stack has a top record. *)
Lemma stack_top (w : World) :
  records (History w) <> [] ->
  exists rs r, History w = mkHistory (rs ++ [r]) (duringUndo (History w)).
Proof.
  intros Hne. destruct (exists_last Hne) as (rs & r & E).
  exists rs, r. rewrite <- E. apply History_eta.
Qed.

Lemma History_undo_records (w : World) :
  records (History (History_undo w)) = removelast (records (History w)).
Proof.
  destruct (records (History w)) as [|r0 rs0] eqn:E.
  - now rewrite History_undo_empty, E.
  - destruct (stack_top w) as (rs & r & H); [now rewrite E|].
    rewrite (History_undo_History _ _ _ _ H). cbn [records].
    rewrite <- E, H. cbn [records]. now rewrite removelast_last.
Qed.

Lemma History_undo_duringUndo (w : World) :
  duringUndo (History w) = false -> duringUndo (History (History_undo w)) = false.
Proof.
  intros Hd. destruct (records (History w)) as [|r0 rs0] eqn:E.
  - now rewrite History_undo_empty.
  - destruct (stack_top w) as (rs & r & H); [now rewrite E|].
    now rewrite (History_undo_History _ _ _ _ H).
Qed.

(** Logging is enabled between any two actions. *)
Lemma step_duringUndo (a : Action) (w : World) :
  duringUndo (History w) = false -> duringUndo (History (step a w)) = false.
Proof.
  intros Hd. destruct a as [m|]; cbn [step].
  - destruct (mutate_History m w) as (d & rv & ->).
    unfold logged. rewrite Hd. now destruct (logs m).
  - now apply History_undo_duringUndo.
Qed.

Lemma run_duringUndo (acts : list Action) (w : World) :
  duringUndo (History w) = false -> duringUndo (History (run acts w)) = false.
Proof.
  revert w. induction acts as [|a acts IH]; intros w Hd; [exact Hd|].
  apply IH. now apply step_duringUndo.
Qed.

(** The depth of the stack along a run. *)
Lemma run_depth (acts : list Action) (w : World) :
  duringUndo (History w) = false ->
  List.length (records (History (run acts w))) + completed_undos acts w
  = List.length (records (History w)) + logged_mutations acts.
Proof.
  revert w. induction acts as [|a acts IH]; intros w Hd.
  - cbn. lia.
  - change (run (a :: acts) w) with (run acts (step a w)).
    specialize (IH (step a w) (step_duringUndo a w Hd)).
    destruct a as [m|]; cbn [completed_undos logged_mutations].
    + cbn [step] in *.
      destruct (mutate_History m w) as (d & rv & Hm).
      rewrite Hm in IH. unfold logged in IH. rewrite Hd in IH.
      destruct (logs m); cbn [records] in IH;
        rewrite ?length_app in IH; cbn [List.length] in IH; lia.
    + cbn [step] in *. rewrite History_undo_records in IH.
      destruct (records (History w)) as [|r0 rs0] eqn:E.
      * cbn in *. lia.
      * assert (Hl : List.length (removelast (r0 :: rs0)) = List.length rs0).
        { destruct (exists_last (l := r0 :: rs0)) as (rs & r & E'); [discriminate|].
          rewrite E', removelast_last.
          apply (f_equal (@List.length _)) in E'.
          rewrite length_app in E'. cbn in E'. lia. }
        rewrite Hl in IH. cbn [List.length Nat.eqb]. lia.
Qed.

(** While a logged closure runs, every call of [History.log] is
    suppressed. *)
Lemma undo_emits_no_push (w : World) (d : string) (pushed : bool) :
  In (LogCall d pushed) (emitted w (History_undo w)) -> pushed = false.
Proof.
  destruct (records (History w)) as [|r0 rs0] eqn:E.
  - rewrite History_undo_empty by assumption.
    unfold emitted. rewrite skipn_all. intros [].
  - destruct (stack_top w) as (rs & r & H); [now rewrite E|].
    pose proof (History_undo_trace _ _ _ _ H) as Ht.
    rewrite call_revert_mutate in Ht.
    destruct (mutate_emitted (mutator_of (revert r))
                (set_History (mkHistory rs true) w))
      as (pre & post & tl & Htr & Hpre & Hpost & Htl & _).
    rewrite Htr, trace_set_History in Ht.
    rewrite (emitted_app _ _ _ Ht).
    intros Hin. apply in_app_or in Hin. destruct Hin as [Hin | Hin].
    { rewrite Forall_forall in Hpre. destruct (Hpre _ Hin). }
    apply in_app_or in Hin. destruct Hin as [Hin | Hin].
    { rewrite Forall_forall in Hpost. destruct (Hpost _ Hin). }
    unfold tail_events in Htl. destruct (logs _).
    + destruct Htl as (d' & ->). rewrite History_set_History in Hin.
      cbn [duringUndo negb] in Hin.
      destruct Hin as [Hin | [Hin | []]]; [|discriminate].
      now injection Hin as _ <-.
    + subst tl. destruct Hin.
Qed.



(* ================================================================== *)
(** ** Notifications *)



(** C10: [moveTrack(i, i)] is the call of the [onTracksChange] callback
    and nothing else: the models, the stack and the stored snapshot are
    unchanged, and the only events are that notification and what its
    callback does to the player. *)
Theorem moveTrack_same_index (this : PlaylistRef) (i : Z) (w : World) :
  let w' := Playlist_moveTrack this i i w in
  w' = fire (Some this) OnTracksChange (onTracksChange (heap w this)) [] w /\
  tracks (heap w' this) = tracks (heap w this) /\
  heap w' = heap w /\
  myPlaylists w' = myPlaylists w /\
  History w' = History w /\
  localStorage w' = localStorage w /\
  (forall c, onTracksChange (heap w this) = Some c ->
             hd_error (emitted w w')
             = Some (Notify OnTracksChange c [] (observe (Some this) w))) /\
  (forall e, In e (emitted w w') ->
             match e with
             | Notify s _ _ _ => s = OnTracksChange
             | SoundStop _ => True
             | _ => False
             end).
Proof.
  cbv zeta.
  assert (E : Playlist_moveTrack this i i w
              = fire (Some this) OnTracksChange (onTracksChange (heap w this)) [] w).
  { unfold Playlist_moveTrack. cbv zeta. now rewrite Z.eqb_refl. }
  rewrite E.
  rewrite (emitted_app _ _ _ (fire_trace _ _ _ _ _)).
  rewrite fire_heap, fire_myPlaylists, fire_History, fire_localStorage.
  repeat split.
  - intros c ->. reflexivity.
  - intros e Hin.
    pose proof (fire_events_pre (Some this) (onTracksChange (heap w this)) [] w) as Hp.
    rewrite Forall_forall in Hp. specialize (Hp e Hin).
    destruct e; cbn [pre_event] in Hp; try exact Hp. now destruct Hp.
Qed.

(** The theorem with the player installed and playing: the only events
    of [moveTrack(2, 2)] are the notification of the player and the stop
    of its sound. *)
Lemma moveTrack_same_index_witness :
  emitted world_viewed (Playlist_moveTrack 0 2 2 world_viewed)
  = [Notify OnTracksChange PlayerStop [] (observe (Some 0) world_viewed);
     SoundStop 10] /\
  hd_error (emitted world_viewed (Playlist_moveTrack 0 2 2 world_viewed))
  = Some (Notify OnTracksChange PlayerStop [] (observe (Some 0) world_viewed)).
Proof.
  destruct (moveTrack_same_index 0 2%Z world_viewed)
    as (_ & _ & _ & _ & _ & _ & Hhd & _).
  split.
  - vm_compute. reflexivity.
  - apply Hhd. vm_compute. reflexivity.
Defined.

(* ================================================================== *)
(** ** Deleting what is not there *)

Lemma deleteTrack_absent this track w :
  ~ In track (tracks (heap w this)) ->
  tracks (heap (Playlist_deleteTrack this track w) this)
  = removelast (tracks (heap w this)).
Proof.
  intros Hn. destruct (Playlist_deleteTrack_spec this track w) as (-> & _).
  rewrite heap_with_same. cbn [tracks with_tracks].
  now apply (splice_delete1_absent JsVal_eqb JsVal_eqb_eq).
Qed.

Lemma deletePlaylist_absent p w :
  ~ In p (playlists (myPlaylists w)) ->
  playlists (myPlaylists (PlaylistSet_deletePlaylist p w))
  = removelast (playlists (myPlaylists w)).
Proof.
  intros Hn. destruct (PlaylistSet_deletePlaylist_spec p w) as (_ & -> & _).
  cbn [playlists with_playlists].
  now apply (splice_delete1_absent Nat.eqb Nat_eqb_eq').
Qed.

(** C4 fails on the code: deleting a track that is not in the playlist
    removes the last track ([indexOf] gives -1 and [splice(-1, 1)] counts
    from the end), and deleting a playlist that is not in the set removes
    the last playlist.  The undo that follows appends the absent entity. *)
Theorem delete_absent_removes_last :
  tracks (heap world_ABCD 0) = [trackA; trackB; trackC; trackD] /\
  tracks (heap (Playlist_deleteTrack 0 (TrackObj 9) world_ABCD) 0)
  = [trackA; trackB; trackC] /\
  tracks (heap (History_undo (Playlist_deleteTrack 0 (TrackObj 9) world_ABCD)) 0)
  = [trackA; trackB; trackC; TrackObj 9] /\
  playlists (myPlaylists world_two_playlists) = [0; 1] /\
  playlists (myPlaylists (PlaylistSet_deletePlaylist 7 world_two_playlists)) = [0] /\
  playlists (myPlaylists
               (History_undo (PlaylistSet_deletePlaylist 7 world_two_playlists)))
  = [0; 7].
Proof. repeat split; vm_compute; reflexivity. Qed.

(* ================================================================== *)
(** ** Moving a track *)

Lemma nth_error_middle {A : Type} (l1 l2 : list A) (x : A) (k : nat) :
  List.length l1 = k -> nth_error (l1 ++ x :: l2) k = Some x.
Proof.
  intros <-. rewrite nth_error_app2, Nat.sub_diag by lia. reflexivity.
Qed.



(* ================================================================== *)
(** ** Undoing a deletion *)

(** C6: the closure logged by a deletion calls [addTrack] /
    [addPlaylist], which appends: a track deleted at position
    [length l1] of [l1 ++ track :: l2] is, after the undo, the last
    element of [l1 ++ l2 ++ [track]]; likewise for a playlist of the
    set. *)
Theorem undo_delete_appends :
  (forall this track l1 l2 w,
      duringUndo (History w) = false ->
      tracks (heap w this) = l1 ++ track :: l2 ->
      ~ In track l1 ->
      let w' := Playlist_deleteTrack this track w in
      tracks (heap w' this) = l1 ++ l2 /\
      History w' = mkHistory (records (History w)
                                ++ [mkRecord "Delete Track" (RevAddTrack this track)])
                             false /\
      call_revert (RevAddTrack this track) = Playlist_addTrack this track /\
      tracks (heap (History_undo w') this) = l1 ++ l2 ++ [track]) /\
  (forall p l1 l2 w,
      duringUndo (History w) = false ->
      playlists (myPlaylists w) = l1 ++ p :: l2 ->
      ~ In p l1 ->
      let w' := PlaylistSet_deletePlaylist p w in
      playlists (myPlaylists w') = l1 ++ l2 /\
      History w' = mkHistory (records (History w)
                                ++ [mkRecord "Delete Playlist" (RevAddPlaylist p)])
                             false /\
      call_revert (RevAddPlaylist p) = PlaylistSet_addPlaylist p /\
      playlists (myPlaylists (History_undo w')) = l1 ++ l2 ++ [p]).
Proof.
  split.
  - intros this track l1 l2 w Hd Hl Hn w'.
    pose proof (Playlist_deleteTrack_spec this track w) as (Hh & _ & HH).
    unfold logged in HH. rewrite Hd in HH.
    assert (Hin : In track (tracks (heap w this))).
    { rewrite Hl. apply in_or_app. right. now left. }
    split; [|split; [exact HH|split; [reflexivity|]]].
    + unfold w'. rewrite Hh, heap_with_same. cbn [tracks with_tracks].
      rewrite Hl, (indexOf_first JsVal_eqb JsVal_eqb_eq) by assumption.
      apply splice_delete1_at.
    + destruct (undo_deleteTrack this track w Hd Hin) as (_ & _ & _ & Hr).
      unfold w'. cbn [mutate] in Hr. rewrite Hr, Nat.eqb_refl, Hl.
      rewrite (remove_first_split JsVal_eqb JsVal_eqb_eq) by assumption.
      now rewrite <- app_assoc.
  - intros p l1 l2 w Hd Hl Hn w'.
    pose proof (PlaylistSet_deletePlaylist_spec p w) as (_ & Hs & HH).
    unfold logged in HH. rewrite Hd in HH.
    assert (Hin : In p (playlists (myPlaylists w))).
    { rewrite Hl. apply in_or_app. right. now left. }
    split; [|split; [exact HH|split; [reflexivity|]]].
    + unfold w'. rewrite Hs. cbn [playlists with_playlists].
      rewrite Hl, (indexOf_first Nat.eqb Nat_eqb_eq') by assumption.
      apply splice_delete1_at.
    + destruct (undo_deletePlaylist p w Hd Hin) as (_ & _ & Hr & _).
      unfold w'. cbn [mutate] in Hr. rewrite Hr, Hl.
      rewrite (remove_first_split Nat.eqb Nat_eqb_eq') by assumption.
      now rewrite <- app_assoc.
Qed.

(** The theorem on [A, B, C, D]: B, deleted at position 1, comes back at
    position 3; playlist 0, deleted at position 0, comes back after 1. *)
Lemma undo_delete_appends_witness :
  tracks (heap (History_undo (Playlist_deleteTrack 0 trackB world_ABCD)) 0)
  = [trackA; trackC; trackD; trackB] /\
  playlists (myPlaylists (History_undo (PlaylistSet_deletePlaylist 0 world_two_playlists)))
  = [1; 0].
Proof.
  split.
  - assert (Hn : ~ In trackB [trackA]) by (intros [H | []]; discriminate).
    exact (proj2 (proj2 (proj2
             (proj1 undo_delete_appends 0 trackB [trackA] [trackC; trackD]
                    world_ABCD eq_refl eq_refl Hn)))).
  - assert (Hn : ~ In 0 (@nil nat)) by (intros []).
    exact (proj2 (proj2 (proj2
             (proj2 undo_delete_appends 0 [] [1] world_two_playlists
                    eq_refl eq_refl Hn)))).
Defined.

(* ================================================================== *)
(** ** uniqueTitle *)

Example numbered_title_examples :
  numbered_title 1 = "Playlist 1" /\ numbered_title 10 = "Playlist 10" /\
  numbered_title 999 = "Playlist 999".
Proof. repeat split. Qed.

(** The inner loop of [uniqueTitle] finds a playlist with the candidate
    title exactly when the title is taken. *)
Lemma found_taken (w : World) (n : nat) :
  existsb (fun p => String.eqb (title (heap w p)) (numbered_title n))
          (playlists (myPlaylists w)) = true <-> taken w n.
Proof.
  unfold taken. rewrite existsb_exists.
  split; intros (p & Hin & Ht); exists p; (split; [exact Hin|]).
  - now apply String.eqb_eq.
  - now apply String.eqb_eq.
Qed.

Lemma uniqueTitle_loop_first (k n N : nat) (w : World) :
  n <= N < n + k ->
  (forall j, n <= j < N -> taken w j) ->
  ~ taken w N ->
  fst (uniqueTitle_loop k n w) = Some (numbered_title N).
Proof.
  revert n w. induction k as [|k IH]; intros n w Hr Hall Hfree; [lia|].
  cbn [uniqueTitle_loop].
  change (String.append "Playlist " (string_of_nat n)) with (numbered_title n).
  cbv zeta.
  change (heap (set_window_title (numbered_title n) w)) with (heap w).
  change (myPlaylists (set_window_title (numbered_title n) w)) with (myPlaylists w).
  destruct (existsb _ _) eqn:E; cbn [negb].
  - apply found_taken in E.
    assert (n <> N) by (intros ->; contradiction).
    apply IH; [lia | | exact Hfree].
    intros j Hj. apply Hall. lia.
  - assert (n = N) as ->; [|reflexivity].
    destruct (Nat.eq_dec n N) as [e | ne]; [exact e|].
    assert (Ht : taken w n) by (apply Hall; lia).
    apply found_taken in Ht. congruence.
Qed.

Lemma uniqueTitle_loop_none (k n : nat) (w : World) :
  (forall j, n <= j < n + k -> taken w j) ->
  fst (uniqueTitle_loop k n w) = None.
Proof.
  revert n w. induction k as [|k IH]; intros n w Hall; [reflexivity|].
  cbn [uniqueTitle_loop].
  change (String.append "Playlist " (string_of_nat n)) with (numbered_title n).
  cbv zeta.
  change (heap (set_window_title (numbered_title n) w)) with (heap w).
  change (myPlaylists (set_window_title (numbered_title n) w)) with (myPlaylists w).
  assert (Ht : taken w n) by (apply Hall; lia).
  apply found_taken in Ht. rewrite Ht. cbn [negb].
  apply IH. intros j Hj. apply Hall. lia.
Qed.

(** C7: [uniqueTitle] returns ["Playlist N"] for the smallest [N] of
    1 .. 999 that no playlist of the set has as its title, and
    [undefined] when all of them are taken; for a set whose only playlist
    is titled ["Playlist 1"] it returns ["Playlist 2"]. *)
Theorem uniqueTitle_smallest_unused :
  (forall w N,
      1 <= N < 1000 ->
      ~ taken w N ->
      (forall j, 1 <= j < N -> taken w j) ->
      fst (PlaylistSet_uniqueTitle w) = Some (numbered_title N)) /\
  (forall w,
      (forall j, 1 <= j < 1000 -> taken w j) ->
      fst (PlaylistSet_uniqueTitle w) = None) /\
  (forall w p,
      playlists (myPlaylists w) = [p] ->
      title (heap w p) = "Playlist 1" ->
      fst (PlaylistSet_uniqueTitle w) = Some "Playlist 2").
Proof.
  assert (H1 : forall w N, 1 <= N < 1000 -> ~ taken w N ->
                           (forall j, 1 <= j < N -> taken w j) ->
                           fst (PlaylistSet_uniqueTitle w) = Some (numbered_title N)).
  { intros w N Hr Hfree Hall. unfold PlaylistSet_uniqueTitle.
    apply uniqueTitle_loop_first; [lia | exact Hall | exact Hfree]. }
  split; [exact H1|]. split.
  - intros w Hall. unfold PlaylistSet_uniqueTitle.
    apply uniqueTitle_loop_none. intros j Hj. apply Hall. lia.
  - intros w p Hp Ht. apply (H1 w 2); [lia | |].
    + intros (q & Hin & Hq). rewrite Hp in Hin.
      destruct Hin as [<- | []]. rewrite Ht in Hq. discriminate.
    + intros j Hj. assert (j = 1) as -> by lia.
      exists p. split; [rewrite Hp; now left | exact Ht].
Qed.

(** The theorem on a set holding only ["Playlist 1"], and on a set in
    which every title from ["Playlist 1"] to ["Playlist 999"] is taken. *)
Lemma uniqueTitle_smallest_unused_witness :
  fst (PlaylistSet_uniqueTitle world_one_titled) = Some "Playlist 2" /\
  fst (PlaylistSet_uniqueTitle world_all_taken) = None.
Proof.
  destruct uniqueTitle_smallest_unused as (_ & Hnone & Hone).
  split.
  - apply (Hone world_one_titled 5); reflexivity.
  - apply Hnone. intros j Hj. exists j. split.
    + apply in_seq. lia.
    + reflexivity.
Defined.

(* ================================================================== *)
(** ** Player *)

Lemma emitted_nil (w w' : World) : trace w' = trace w -> emitted w w' = [].
Proof. intros H. apply emitted_app. now rewrite app_nil_r. Qed.

Lemma emitted_hd (w w' : World) (e : Event) (es : list Event) :
  trace w' = trace w ++ e :: es -> hd_error (emitted w w') = Some e.
Proof. intros H. now rewrite (emitted_app _ _ _ H). Qed.

(** [playNextTrack] when the next index is past the end. *)
Lemma playNextTrack_at_end (w : World) :
  (index (player w) + 1 >= Z.of_nat (List.length (player_tracks w)))%Z ->
  let w' := Player_playNextTrack w in
  player w' = mkPlayer (playlist (player w)) (-1) None (nextSound (player w))
                       "Play" ClickPlay /\
  trace w' = trace w.
Proof.
  intros H. unfold Player_playNextTrack. cbv zeta.
  replace (index (player (update_player
                 (fun p => with_index (index p + 1) p) w))
           >=? Z.of_nat (List.length (player_tracks (update_player
                 (fun p => with_index (index p + 1) p) w))))%Z with true.
  - split; reflexivity.
  - symmetry. rewrite Z.geb_leb. apply Z.leb_le.
    unfold player_tracks in *. cbn. lia.
Qed.

(** [playNextTrack] when the next index is in range. *)
Lemma playNextTrack_in_range (w : World) :
  (index (player w) + 1 < Z.of_nat (List.length (player_tracks w)))%Z ->
  Player_playNextTrack w =
  let w1 := update_player (fun p => with_index (index p + 1) p) w in
  match nextSound (player w) with
  | Some s => Player_playSound s (update_player (with_nextSound None) w1)
  | None => SC_stream (array_get (player_tracks w) (index (player w) + 1))
                      ThenPlaySound w1
  end.
Proof.
  intros H. unfold Player_playNextTrack. cbv zeta.
  replace (index (player (update_player
                 (fun p => with_index (index p + 1) p) w))
           >=? Z.of_nat (List.length (player_tracks (update_player
                 (fun p => with_index (index p + 1) p) w))))%Z with false.
  - reflexivity.
  - symmetry. rewrite Z.geb_leb. apply Z.leb_gt.
    unfold player_tracks in *. cbn. lia.
Qed.

(** [playSound] starts the sound and makes it the current one. *)
Lemma playSound_starts (s : SoundRef) (w : World) :
  let w' := Player_playSound s w in
  index (player w') = index (player w) /\
  sound (player w') = Some s /\
  nextSound (player w') = None /\
  exists es, trace w' = trace w ++ SoundPlay s :: es.
Proof.
  unfold Player_playSound. cbv zeta.
  match goal with |- context [if ?c then _ else _] => destruct c end.
  - unfold SC_stream.
    match goal with |- context [match ?t with Undefined => _ | TrackObj _ => _ end] =>
      destruct t end; cbn; repeat split; eexists;
      rewrite <- app_assoc; reflexivity.
  - cbn. repeat split. now exists [].
Qed.

(** C8: when the playing sound finishes, [playNextTrack] runs.  If the
    next index is past the end the player stops: index -1, no current
    sound, button back to Play, nothing requested or started.  Otherwise
    the index is the next index and, with a preloaded sound, that sound
    starts at once and leaves the preload slot; without one, the sound of
    the next track is requested and starts when it arrives. *)
Theorem chained_advance (w : World) :
  let i := index (player w) in
  let l := player_tracks w in
  let w' := sound_finished w in
  ((i + 1 >= Z.of_nat (List.length l))%Z ->
   index (player w') = (-1)%Z /\
   sound (player w') = None /\
   innerHTML (player w') = "Play" /\
   onclick (player w') = ClickPlay /\
   emitted w w' = []) /\
  ((i + 1 < Z.of_nat (List.length l))%Z ->
   forall s, nextSound (player w) = Some s ->
   index (player w') = (i + 1)%Z /\
   sound (player w') = Some s /\
   nextSound (player w') = None /\
   hd_error (emitted w w') = Some (SoundPlay s)) /\
  ((i + 1 < Z.of_nat (List.length l))%Z ->
   nextSound (player w) = None ->
   forall t, array_get l (i + 1) = TrackObj t ->
   index (player w') = (i + 1)%Z /\
   emitted w w' = [SCStream t ThenPlaySound] /\
   forall s,
     let w'' := stream_ready ThenPlaySound s w' in
     index (player w'') = (i + 1)%Z /\
     sound (player w'') = Some s /\
     hd_error (emitted w' w'') = Some (SoundPlay s)).
Proof.
  cbv zeta. unfold sound_finished. split; [|split].
  - intros Hend. destruct (playNextTrack_at_end w Hend) as (Hp & Ht).
    rewrite Hp. cbn [index sound innerHTML onclick].
    repeat split. now apply emitted_nil.
  - intros Hlt s Hn. rewrite (playNextTrack_in_range w Hlt). cbv zeta. rewrite Hn.
    destruct (playSound_starts s
      (update_player (with_nextSound None)
         (update_player (fun p => with_index (index p + 1) p) w)))
      as (Hi & Hs & Hn' & es & Ht).
    rewrite Hi, Hs, Hn'. repeat split.
    now apply (emitted_hd _ _ _ es).
  - intros Hlt Hn t Ht. rewrite (playNextTrack_in_range w Hlt). cbv zeta.
    rewrite Hn, Ht. split; [reflexivity|]. split.
    + apply emitted_app. reflexivity.
    + intros s. cbn [stream_ready].
      destruct (playSound_starts s
        (SC_stream (TrackObj t) ThenPlaySound
           (update_player (fun p => with_index (index p + 1) p) w)))
        as (Hi & Hs & _ & es & Htr).
      rewrite Hi, Hs. repeat split.
      now apply (emitted_hd _ _ _ es).
Qed.

(** The theorem on [A, B, C, D] with track 1 playing: with the sound of
    track 2 preloaded it starts at once; without, it is requested and
    starts on arrival; and after the last track the player stops. *)
Lemma chained_advance_witness :
  (index (player (sound_finished world_playing_preloaded)) = 2%Z /\
   sound (player (sound_finished world_playing_preloaded)) = Some 12 /\
   nextSound (player (sound_finished world_playing_preloaded)) = None) /\
  (emitted world_playing (sound_finished world_playing)
   = [SCStream 3 ThenPlaySound] /\
   sound (player (stream_ready ThenPlaySound 21 (sound_finished world_playing)))
   = Some 21) /\
  (index (player (sound_finished world_playing_last)) = (-1)%Z /\
   sound (player (sound_finished world_playing_last)) = None).
Proof.
  split; [|split].
  - destruct (chained_advance world_playing_preloaded) as (_ & Hpre & _).
    assert (Hlt : (index (player world_playing_preloaded) + 1
                   < Z.of_nat (List.length (player_tracks world_playing_preloaded)))%Z)
      by (vm_compute; reflexivity).
    assert (Hn : nextSound (player world_playing_preloaded) = Some 12)
      by (vm_compute; reflexivity).
    destruct (Hpre Hlt 12 Hn) as (Hi & Hs & Hn' & _).
    split; [exact Hi | split; [exact Hs | exact Hn']].
  - destruct (chained_advance world_playing) as (_ & _ & Hreq).
    assert (Hlt : (index (player world_playing) + 1
                   < Z.of_nat (List.length (player_tracks world_playing)))%Z)
      by (vm_compute; reflexivity).
    assert (Hn : nextSound (player world_playing) = None)
      by (vm_compute; reflexivity).
    assert (Ht : array_get (player_tracks world_playing)
                           (index (player world_playing) + 1) = TrackObj 3)
      by (vm_compute; reflexivity).
    destruct (Hreq Hlt Hn 3 Ht) as (_ & He & Harr).
    split; [exact He|]. destruct (Harr 21) as (_ & Hs & _). exact Hs.
  - destruct (chained_advance world_playing_last) as (Hend & _).
    assert (Hge : (index (player world_playing_last) + 1
                   >= Z.of_nat (List.length (player_tracks world_playing_last)))%Z)
      by (vm_compute; discriminate).
    destruct (Hend Hge) as (Hi & Hs & _).
    split; [exact Hi | exact Hs].
Defined.

(** C9: [play] on a playlist without tracks ends with the player idle
    (index -1, no sound, no preloaded sound, button back to Play) and
    emits nothing, so no sound was requested or started; [stop] on an
    idle player leaves index, sound and preloaded sound as they are. *)
Theorem player_idle_edge_cases (w : World) :
  (player_tracks w = [] ->
   let w' := Player_play w in
   index (player w') = (-1)%Z /\
   sound (player w') = None /\
   nextSound (player w') = None /\
   innerHTML (player w') = "Play" /\
   onclick (player w') = ClickPlay /\
   emitted w w' = []) /\
  (index (player w) = (-1)%Z ->
   sound (player w) = None ->
   let w' := Player_stop w in
   index (player w') = index (player w) /\
   sound (player w') = sound (player w) /\
   nextSound (player w') = nextSound (player w) /\
   emitted w w' = []).
Proof.
  split.
  - intros Hl. cbv zeta. unfold Player_play. cbv zeta.
    match goal with |- context [Player_playNextTrack ?w1] =>
      destruct (playNextTrack_at_end w1) as (Hp & Ht) end.
    { change (player_tracks
                (update_player (with_nextSound None)
                   (update_player (with_index (-1))
                      (update_player (with_button "Stop" ClickStop) w))))
        with (player_tracks w).
      rewrite Hl. cbn. lia. }
    cbv zeta in Hp, Ht. rewrite Hp. cbn [index sound nextSound innerHTML onclick].
    repeat split. now apply emitted_nil.
  - intros Hi Hs. cbv zeta. unfold Player_stop. cbv zeta.
    cbn [player update_player set_player sound with_button]. rewrite Hs.
    cbn. rewrite Hi, Hs. repeat split. apply emitted_nil. reflexivity.
Qed.

(** The theorem on a player of an empty playlist. *)
Lemma player_idle_edge_cases_witness :
  index (player (Player_play world_idle_empty)) = (-1)%Z /\
  emitted world_idle_empty (Player_play world_idle_empty) = [] /\
  nextSound (player (Player_stop world_idle_empty))
  = nextSound (player world_idle_empty).
Proof.
  destruct (player_idle_edge_cases world_idle_empty) as (Hplay & Hstop).
  assert (Hl : player_tracks world_idle_empty = []) by (vm_compute; reflexivity).
  assert (Hx : index (player world_idle_empty) = (-1)%Z) by (vm_compute; reflexivity).
  assert (Hs : sound (player world_idle_empty) = None) by (vm_compute; reflexivity).
  destruct (Hplay Hl) as (Hi & _ & _ & _ & _ & He).
  destruct (Hstop Hx Hs) as (_ & _ & Hn & _).
  split; [exact Hi | split; [exact He | exact Hn]].
Defined.

(* ================================================================== *)
(** ** The Undo button and the stored snapshot *)

Lemma Player_stop_undoButton w : undoButton (Player_stop w) = undoButton w.
Proof. unfold Player_stop, update_player. simpl. destruct (sound (player w)); reflexivity. Qed.

Lemma fire_undoButton this slot cb args w :
  undoButton (fire this slot cb args w) = undoButton w.
Proof.
  destruct cb as [[v|]|]; unfold fire, run_callback;
    [reflexivity | rewrite Player_stop_undoButton; reflexivity | reflexivity].
Qed.

Lemma undoButton_update_playlist this f w :
  undoButton (update_playlist this f w) = undoButton w.
Proof. reflexivity. Qed.

Lemma undoButton_set_myPlaylists s w :
  undoButton (set_myPlaylists s w) = undoButton w.
Proof. reflexivity. Qed.

Lemma undoButton_set_window_index i w :
  undoButton (set_window_index i w) = undoButton w.
Proof. reflexivity. Qed.

Create Rewrite HintDb ui.
#[global] Hint Rewrite
  fire_undoButton undoButton_update_playlist undoButton_set_myPlaylists
  undoButton_set_window_index : ui.

Lemma History_update_localStorage w :
  localStorage (History_update w) = localStorage w.
Proof.
  unfold History_update.
  destruct (0 <? _)%nat; [destruct (nth_error _ _)|]; reflexivity.
Qed.

Lemma History_log_localStorage d rv w :
  localStorage (History_log d rv w) = localStorage w.
Proof.
  unfold History_log. cbn [History emit]. destruct (negb _); [|reflexivity].
  now rewrite History_update_localStorage.
Qed.

Lemma button_for_top rs r :
  button_for (rs ++ [r]) = (String.append "Undo " (rec_description r), false).
Proof. unfold button_for. now rewrite rev_unit. Qed.

(** [History.update] makes the button show the stack. *)
Lemma History_update_button w :
  undoButton (History_update w) = button_for (records (History w)).
Proof.
  unfold History_update.
  generalize (records (History w)). intros rs.
  destruct rs as [|r rs _] using rev_ind.
  - reflexivity.
  - rewrite button_for_top, length_app, Nat.add_comm.
    cbn [List.length Nat.add Nat.ltb Nat.leb].
    replace (S (List.length rs) - 1) with (List.length rs) by lia.
    rewrite nth_error_app2, Nat.sub_diag by lia. reflexivity.
Qed.

Lemma History_update_synced w : button_synced (History_update w).
Proof.
  unfold button_synced. now rewrite History_update_button, History_update_History.
Qed.

(** A call that does not return early ends with [History.log] and
    [save], which are reached with the stack, the button and the stored
    snapshot it started with. *)
Lemma mutate_shape (m : Mutator) (w : World) :
  logs m = true ->
  exists d rv w1,
    mutate m w = PlaylistSet_save (History_log d rv w1) /\
    History w1 = History w /\
    undoButton w1 = undoButton w.
Proof.
  destruct m as [p | p | this t | this d | this track | this track | this from to];
    cbn [mutate logs]; intros Hl.
  - unfold PlaylistSet_addPlaylist. do 3 eexists. split; [reflexivity|].
    split; [frame; reflexivity | autorewrite with ui; reflexivity].
  - unfold PlaylistSet_deletePlaylist. do 3 eexists. split; [reflexivity|].
    split; [frame; reflexivity | autorewrite with ui; reflexivity].
  - unfold Playlist_setTitle. do 3 eexists. split; [reflexivity|].
    split; [frame; reflexivity | autorewrite with ui; reflexivity].
  - unfold Playlist_setDescription. do 3 eexists. split; [reflexivity|].
    split; [frame; reflexivity | autorewrite with ui; reflexivity].
  - unfold Playlist_addTrack. do 3 eexists. split; [reflexivity|].
    split; [frame; reflexivity | autorewrite with ui; reflexivity].
  - unfold Playlist_deleteTrack. do 3 eexists. split; [reflexivity|].
    split; [frame; reflexivity | cbv zeta; autorewrite with ui; reflexivity].
  - unfold Playlist_moveTrack. cbv zeta.
    destruct (from =? to)%Z; [discriminate|].
    do 3 eexists. split; [reflexivity|].
    split; [frame; reflexivity | autorewrite with ui; reflexivity].
Qed.

(** A call that returns early changes neither the models, nor the
    stack, nor the button, nor the stored snapshot. *)
Lemma mutate_early (m : Mutator) (w : World) :
  logs m = false ->
  heap (mutate m w) = heap w /\
  myPlaylists (mutate m w) = myPlaylists w /\
  History (mutate m w) = History w /\
  undoButton (mutate m w) = undoButton w /\
  localStorage (mutate m w) = localStorage w.
Proof.
  destruct m as [p | p | this t | this d | this track | this track | this from to];
    cbn [mutate logs]; try discriminate.
  intros Hl. unfold Playlist_moveTrack. cbv zeta.
  destruct (from =? to)%Z; [|discriminate].
  now rewrite fire_heap, fire_myPlaylists, fire_History, fire_undoButton,
    fire_localStorage.
Qed.

Lemma log_save_synced d rv w :
  button_synced w -> button_synced (PlaylistSet_save (History_log d rv w)).
Proof.
  unfold button_synced. intros Hs.
  change (undoButton (PlaylistSet_save (History_log d rv w)))
    with (undoButton (History_log d rv w)).
  rewrite save_History, History_log_History.
  unfold History_log. cbn [History emit undoButton].
  destruct (duringUndo (History w)); cbn [negb].
  - exact Hs.
  - rewrite History_update_button. reflexivity.
Qed.

Lemma mutate_synced (m : Mutator) (w : World) :
  button_synced w -> button_synced (mutate m w).
Proof.
  intros Hs. destruct (logs m) eqn:El.
  - destruct (mutate_shape m w El) as (d & rv & w1 & -> & HH & Hb).
    apply log_save_synced. unfold button_synced. now rewrite HH, Hb.
  - destruct (mutate_early m w El) as (_ & _ & HH & Hb & _).
    unfold button_synced. now rewrite HH, Hb.
Qed.

Lemma History_undo_synced (w : World) :
  button_synced w -> button_synced (History_undo w).
Proof.
  intros Hs. destruct (records (History w)) as [|r0 rs0] eqn:E.
  - now rewrite History_undo_empty.
  - destruct (stack_top w) as (rs & r & H); [now rewrite E|].
    rewrite (History_undo_top _ _ _ _ H). apply History_update_synced.
Qed.

Lemma step_synced (a : Action) (w : World) :
  button_synced w -> button_synced (step a w).
Proof.
  destruct a as [m|]; cbn [step];
    [apply mutate_synced | apply History_undo_synced].
Qed.

Lemma button_for_disabled rs : snd (button_for rs) = true <-> rs = [].
Proof.
  destruct rs as [|r rs _] using rev_ind.
  - split; reflexivity.
  - rewrite button_for_top. cbn [snd]. split; [discriminate|].
    intros H. now destruct rs.
Qed.



Lemma save_persisted w : persisted (PlaylistSet_save w).
Proof. reflexivity. Qed.

Lemma mutate_persisted (m : Mutator) (w : World) :
  persisted w -> persisted (mutate m w).
Proof.
  intros Hp. destruct (logs m) eqn:El.
  - destruct (mutate_shape m w El) as (d & rv & w1 & -> & _). apply save_persisted.
  - destruct (mutate_early m w El) as (Hh & Hs & _ & _ & Hl).
    unfold persisted. rewrite Hl, (saved_data_ext _ w Hh Hs). exact Hp.
Qed.

Lemma History_undo_persisted (w : World) :
  persisted w -> persisted (History_undo w).
Proof.
  intros Hp. destruct (records (History w)) as [|r0 rs0] eqn:E.
  - now rewrite History_undo_empty.
  - destruct (stack_top w) as (rs & r & H); [now rewrite E|].
    rewrite (History_undo_top _ _ _ _ H), call_revert_mutate.
    assert (Hm : persisted (mutate (mutator_of (revert r))
                              (set_History (mkHistory rs true) w)))
      by (apply mutate_persisted; exact Hp).
    unfold persisted in *.
    rewrite History_update_localStorage.
    rewrite (saved_data_ext _ (mutate (mutator_of (revert r))
                                 (set_History (mkHistory rs true) w))).
    + exact Hm.
    + now rewrite History_update_heap.
    + now rewrite History_update_myPlaylists.
Qed.

Lemma run_persisted (acts : list Action) (w : World) :
  persisted w -> persisted (run acts w).
Proof.
  revert w. induction acts as [|a acts IH]; intros w Hp; [exact Hp|].
  apply IH. destruct a as [m|]; cbn [step];
    [now apply mutate_persisted | now apply History_undo_persisted].
Qed.

Lemma run_app (l1 l2 : list Action) (w : World) :
  run (l1 ++ l2) w = run l2 (run l1 w).
Proof. unfold run. apply fold_left_app. Qed.



(* ================================================================== *)
(** ** Undoing a whole sequence of calls *)

Lemma same_models_refl w : same_models w w.
Proof. repeat split. Qed.

Lemma same_models_trans w1 w2 w3 :
  same_models w1 w2 -> same_models w2 w3 -> same_models w1 w3.
Proof.
  intros (Hh & Hs & HH) (Hh' & Hs' & HH'). repeat split.
  - intros q. now rewrite Hh.
  - now rewrite Hs.
  - now rewrite HH.
Qed.

Lemma same_models_set_History h w1 w2 :
  same_models w1 w2 -> same_models (set_History h w1) (set_History h w2).
Proof. intros (Hh & Hs & _). repeat split; assumption. Qed.

Lemma admissible_same m w1 w2 :
  same_models w1 w2 -> admissible m w1 -> admissible m w2.
Proof.
  intros (Hh & Hs & _).
  destruct m as [p | p | this t | this d | this track | this track | this from to];
    cbn [admissible]; rewrite <- ?Hs, <- ?(Hh this); exact (fun H => H).
Qed.

Lemma heap_with_same_models this f g h1 h2 q :
  (forall q, h1 q = h2 q) -> f (h2 this) = g (h2 this) ->
  heap_with this f h1 q = heap_with this g h2 q.
Proof.
  intros Hh Hf. rewrite !heap_with_at, !Hh, Hf. reflexivity.
Qed.

(** A mutator call depends on the models and the stack only. *)
Lemma mutate_same m w1 w2 :
  same_models w1 w2 -> same_models (mutate m w1) (mutate m w2).
Proof.
  intros (Hh & Hs & HH). unfold same_models.
  destruct m as [p | p | this t | this d | this track | this track | this from to];
    cbn [mutate].
  - destruct (PlaylistSet_addPlaylist_spec p w1) as (-> & -> & ->).
    destruct (PlaylistSet_addPlaylist_spec p w2) as (-> & -> & ->).
    unfold logged. rewrite Hs, HH. repeat split. exact Hh.
  - destruct (PlaylistSet_deletePlaylist_spec p w1) as (-> & -> & ->).
    destruct (PlaylistSet_deletePlaylist_spec p w2) as (-> & -> & ->).
    unfold logged. rewrite Hs, HH. repeat split. exact Hh.
  - destruct (Playlist_setTitle_spec this t w1) as (-> & -> & ->).
    destruct (Playlist_setTitle_spec this t w2) as (-> & -> & ->).
    unfold logged. rewrite Hs, HH, (Hh this). repeat split.
    intros q. now apply heap_with_same_models.
  - destruct (Playlist_setDescription_spec this d w1) as (-> & -> & ->).
    destruct (Playlist_setDescription_spec this d w2) as (-> & -> & ->).
    unfold logged. rewrite Hs, HH, (Hh this). repeat split.
    intros q. now apply heap_with_same_models.
  - destruct (Playlist_addTrack_spec this track w1) as (-> & -> & ->).
    destruct (Playlist_addTrack_spec this track w2) as (-> & -> & ->).
    unfold logged. rewrite Hs, HH. repeat split.
    intros q. now apply heap_with_same_models.
  - destruct (Playlist_deleteTrack_spec this track w1) as (-> & -> & ->).
    destruct (Playlist_deleteTrack_spec this track w2) as (-> & -> & ->).
    unfold logged. rewrite Hs, HH. repeat split.
    intros q. apply heap_with_same_models; [exact Hh|]. now rewrite (Hh this).
  - destruct (Playlist_moveTrack_spec this from to w1) as (Hh1 & -> & ->).
    destruct (Playlist_moveTrack_spec this from to w2) as (Hh2 & -> & ->).
    unfold logged. rewrite Hs, HH. repeat split.
    intros q. now rewrite Hh1, Hh2, !Hh.
Qed.

(** [History.undo] depends on the models and the stack only. *)
Lemma History_undo_same w1 w2 :
  same_models w1 w2 -> same_models (History_undo w1) (History_undo w2).
Proof.
  intros Hsame. pose proof Hsame as (Hh & Hs & HH).
  destruct (records (History w1)) as [|r0 rs0] eqn:E.
  - rewrite (History_undo_empty w1 E), History_undo_empty; [exact Hsame|].
    now rewrite <- HH.
  - destruct (stack_top w1) as (rs & r & H1); [now rewrite E|].
    assert (H2 : History w2 = mkHistory (rs ++ [r]) (duringUndo (History w1)))
      by now rewrite <- HH.
    pose proof (mutate_same (mutator_of (revert r)) _ _
                  (same_models_set_History (mkHistory rs true) _ _ Hsame))
      as (Hh' & Hs' & _).
    repeat split.
    + intros q.
      rewrite (History_undo_heap _ _ _ _ H1), (History_undo_heap _ _ _ _ H2).
      rewrite !call_revert_mutate. apply Hh'.
    + rewrite (History_undo_myPlaylists _ _ _ _ H1),
        (History_undo_myPlaylists _ _ _ _ H2).
      rewrite !call_revert_mutate. apply Hs'.
    + now rewrite (History_undo_History _ _ _ _ H1), (History_undo_History _ _ _ _ H2).
Qed.

Lemma with_title_back t p : with_title (title p) (with_title t p) = p.
Proof. now destruct p. Qed.

Lemma with_description_back d p :
  with_description (description p) (with_description d p) = p.
Proof. now destruct p. Qed.

Lemma with_tracks_back l l' p :
  l' = tracks p -> with_tracks l' (with_tracks l p) = p.
Proof. intros ->. now destruct p. Qed.

Lemma with_playlists_back l l' s :
  l' = playlists s -> with_playlists l' (with_playlists l s) = s.
Proof. intros ->. now destruct s. Qed.

Ltac undo_exact Hspec Hd :=
  let Hh := fresh "Hh" in let Hs := fresh "Hs" in let HH := fresh "HH" in
  destruct Hspec as (Hh & Hs & HH);
  unfold logged in HH; rewrite Hd in HH;
  unfold same_models;
  rewrite (History_undo_History _ _ _ _ HH), (History_undo_myPlaylists _ _ _ _ HH),
    (History_undo_heap _ _ _ _ HH);
  cbn [revert call_revert].

(** The undo of a call that is not a deletion is exact: it gives back
    the models, slots included, and the stack. *)
Lemma undo_exact (m : Mutator) (w : World) :
  duringUndo (History w) = false ->
  admissible m w ->
  deletes m = false ->
  same_models (History_undo (mutate m w)) w.
Proof.
  intros Hd Hadm Hnd.
  assert (HHw : mkHistory (records (History w)) false = History w).
  { rewrite <- Hd. symmetry. apply History_eta. }
  destruct m as [p | p | this t | this d | this track | this track | this from to];
    cbn [mutate admissible deletes] in *; try discriminate.
  - undo_exact (PlaylistSet_addPlaylist_spec p w) Hd.
    match goal with |- context [PlaylistSet_deletePlaylist p ?w2] =>
      destruct (PlaylistSet_deletePlaylist_spec p w2) as (Hh2 & Hs2 & _) end.
    rewrite Hh2, Hs2, heap_set_History, myPlaylists_set_History, Hh, Hs.
    repeat split; [|exact HHw].
    apply with_playlists_back. cbn [playlists with_playlists].
    now apply (splice_delete1_pushed Nat.eqb Nat_eqb_eq').
  - undo_exact (Playlist_setTitle_spec this t w) Hd.
    match goal with |- context [Playlist_setTitle this ?t0 ?w2] =>
      destruct (Playlist_setTitle_spec this t0 w2) as (Hh2 & Hs2 & _) end.
    rewrite Hh2, Hs2, heap_set_History, myPlaylists_set_History, Hh, Hs.
    repeat split; [|exact HHw].
    intros q. rewrite heap_with_twice.
    destruct (Nat.eqb_spec q this); subst; [apply with_title_back | reflexivity].
  - undo_exact (Playlist_setDescription_spec this d w) Hd.
    match goal with |- context [Playlist_setDescription this ?t0 ?w2] =>
      destruct (Playlist_setDescription_spec this t0 w2) as (Hh2 & Hs2 & _) end.
    rewrite Hh2, Hs2, heap_set_History, myPlaylists_set_History, Hh, Hs.
    repeat split; [|exact HHw].
    intros q. rewrite heap_with_twice.
    destruct (Nat.eqb_spec q this); subst; [apply with_description_back | reflexivity].
  - undo_exact (Playlist_addTrack_spec this track w) Hd.
    match goal with |- context [Playlist_deleteTrack this track ?w2] =>
      destruct (Playlist_deleteTrack_spec this track w2) as (Hh2 & Hs2 & _) end.
    rewrite Hh2, Hs2, !heap_set_History, myPlaylists_set_History, Hh, Hs.
    repeat split; [|exact HHw].
    intros q. rewrite heap_with_twice, heap_with_same.
    destruct (Nat.eqb_spec q this); subst; [|reflexivity].
    apply with_tracks_back. cbn [tracks with_tracks].
    now apply (splice_delete1_pushed JsVal_eqb JsVal_eqb_eq).
  - destruct Hadm as (Hne & Hf & Ht).
    assert (E : (from =? to)%Z = false) by now apply Z.eqb_neq.
    assert (E' : (to =? from)%Z = false) by (apply Z.eqb_neq; congruence).
    pose proof (Playlist_moveTrack_spec this from to w) as Hspec.
    cbv zeta in Hspec. rewrite E in Hspec.
    undo_exact Hspec Hd.
    match goal with |- context [Playlist_moveTrack this to from ?w2] =>
      pose proof (Playlist_moveTrack_spec this to from w2) as Hspec2 end.
    cbv zeta in Hspec2. rewrite E' in Hspec2.
    destruct Hspec2 as (Hh2 & Hs2 & _).
    rewrite Hs2, myPlaylists_set_History, Hs.
    repeat split; [|exact HHw].
    intros q. rewrite Hh2, !heap_set_History, !Hh, Nat.eqb_refl.
    destruct (Nat.eqb_spec q this); subst; [|reflexivity].
    apply with_tracks_back. cbn [tracks with_tracks].
    exact (proj2 (move_roundtrip (tracks (heap w this)) from to Hf Ht)).
Qed.

Lemma repeat_snoc {A : Type} (x : A) (n : nat) :
  repeat x (S n) = repeat x n ++ [x].
Proof. induction n as [|n IH]; [reflexivity|]. cbn in *. now rewrite <- IH. Qed.



(* ================================================================== *)
(** ** What a mutator leaves alone *)

Lemma registered_heap_with s this0 this f h1 s1 h2 s2 w1 w2 :
  heap w1 = heap_with this f (heap w2) ->
  (forall p, onTitleChange (f p) = onTitleChange p /\
             onDescriptionChange (f p) = onDescriptionChange p /\
             onTracksChange (f p) = onTracksChange p /\
             onAddTrack (f p) = onAddTrack p /\
             onDeleteTrack (f p) = onDeleteTrack p /\
             onMoveTrack (f p) = onMoveTrack p) ->
  myPlaylists w1 = myPlaylists w2 ->
  h1 = heap w1 -> h2 = heap w2 -> s1 = myPlaylists w1 -> s2 = myPlaylists w2 ->
  registered s this0 w1 = registered s this0 w2.
Proof.
  intros Hh Hf Hs _ _ _ _.
  destruct s, this0 as [q|]; cbn [registered]; rewrite ?Hs; try reflexivity;
    rewrite Hh, heap_with_at; destruct (Nat.eqb_spec q this); subst;
    try reflexivity; apply Hf.
Qed.

Lemma slots_with_title t p :
  onTitleChange (with_title t p) = onTitleChange p /\
  onDescriptionChange (with_title t p) = onDescriptionChange p /\
  onTracksChange (with_title t p) = onTracksChange p /\
  onAddTrack (with_title t p) = onAddTrack p /\
  onDeleteTrack (with_title t p) = onDeleteTrack p /\
  onMoveTrack (with_title t p) = onMoveTrack p.
Proof. repeat split. Qed.

Lemma slots_with_description d p :
  onTitleChange (with_description d p) = onTitleChange p /\
  onDescriptionChange (with_description d p) = onDescriptionChange p /\
  onTracksChange (with_description d p) = onTracksChange p /\
  onAddTrack (with_description d p) = onAddTrack p /\
  onDeleteTrack (with_description d p) = onDeleteTrack p /\
  onMoveTrack (with_description d p) = onMoveTrack p.
Proof. repeat split. Qed.

Lemma slots_with_tracks (g : Playlist -> list JsVal) p :
  onTitleChange (with_tracks (g p) p) = onTitleChange p /\
  onDescriptionChange (with_tracks (g p) p) = onDescriptionChange p /\
  onTracksChange (with_tracks (g p) p) = onTracksChange p /\
  onAddTrack (with_tracks (g p) p) = onAddTrack p /\
  onDeleteTrack (with_tracks (g p) p) = onDeleteTrack p /\
  onMoveTrack (with_tracks (g p) p) = onMoveTrack p.
Proof. repeat split. Qed.



(* ================================================================== *)
(** ** Arguments out of range *)

(** X5: deleting what is not in the sequence.  [indexOf] is -1 and
    [splice(-1, 1)] removes the last element (nothing when the sequence
    is empty).  With no callback in the slot notified of the deletion,
    the call goes on to log its inverse, so that the undo that follows
    appends the entity that never was in the sequence. *)
Theorem delete_absent_removes_last_element :
  (forall this track w,
      ~ In track (tracks (heap w this)) ->
      tracks (heap (Playlist_deleteTrack this track w) this)
      = removelast (tracks (heap w this))) /\
  (forall this track w,
      duringUndo (History w) = false ->
      onDeleteTrack (heap w this) = None ->
      ~ In track (tracks (heap w this)) ->
      tracks (heap (History_undo (Playlist_deleteTrack this track w)) this)
      = removelast (tracks (heap w this)) ++ [track]) /\
  (forall p w,
      ~ In p (playlists (myPlaylists w)) ->
      playlists (myPlaylists (PlaylistSet_deletePlaylist p w))
      = removelast (playlists (myPlaylists w))) /\
  (forall p w,
      duringUndo (History w) = false ->
      onChange (myPlaylists w) = None ->
      onDeletePlaylist (myPlaylists w) = None ->
      ~ In p (playlists (myPlaylists w)) ->
      playlists (myPlaylists (History_undo (PlaylistSet_deletePlaylist p w)))
      = removelast (playlists (myPlaylists w)) ++ [p]).
Proof.
  split; [|split; [|split]].
  - intros this track w Hn. now apply deleteTrack_absent.
  - intros this track w Hd _ Hn.
    pose proof (Playlist_deleteTrack_spec this track w) as (Hh & _ & HH).
    unfold logged in HH. rewrite Hd in HH.
    rewrite (History_undo_heap _ _ _ _ HH). cbn [revert call_revert].
    match goal with |- context [Playlist_addTrack this track ?w2] =>
      destruct (Playlist_addTrack_spec this track w2) as (Hh2 & _) end.
    rewrite Hh2, heap_set_History, Hh, heap_with_twice, Nat.eqb_refl.
    cbn [tracks with_tracks]. unfold push.
    now rewrite (splice_delete1_absent JsVal_eqb JsVal_eqb_eq) by assumption.
  - intros p w Hn. now apply deletePlaylist_absent.
  - intros p w Hd _ _ Hn.
    pose proof (PlaylistSet_deletePlaylist_spec p w) as (_ & Hs & HH).
    unfold logged in HH. rewrite Hd in HH.
    rewrite (History_undo_myPlaylists _ _ _ _ HH). cbn [revert call_revert].
    match goal with |- context [PlaylistSet_addPlaylist p ?w2] =>
      destruct (PlaylistSet_addPlaylist_spec p w2) as (_ & Hs2 & _) end.
    rewrite Hs2, myPlaylists_set_History, Hs. cbn [playlists with_playlists].
    unfold push.
    now rewrite (splice_delete1_absent Nat.eqb Nat_eqb_eq') by assumption.
Qed.

(** The theorem on [A, B, C, D] and on the set [0, 1]. *)
Lemma delete_absent_removes_last_element_witness :
  tracks (heap (Playlist_deleteTrack 0 (TrackObj 9) world_ABCD) 0)
  = removelast (tracks (heap world_ABCD 0)) /\
  tracks (heap (History_undo (Playlist_deleteTrack 0 (TrackObj 9) world_ABCD)) 0)
  = [trackA; trackB; trackC; TrackObj 9] /\
  playlists (myPlaylists (PlaylistSet_deletePlaylist 7 world_two_playlists))
  = removelast (playlists (myPlaylists world_two_playlists)).
Proof.
  destruct delete_absent_removes_last_element as (Htrack & Hundo & Hset & _).
  assert (Hn : ~ In (TrackObj 9) (tracks (heap world_ABCD 0))).
  { vm_compute. intros H.
    repeat (destruct H as [H | H]; [discriminate H|]). exact H. }
  split; [|split].
  - exact (Htrack 0 (TrackObj 9) world_ABCD Hn).
  - assert (Hd : duringUndo (History world_ABCD) = false) by (vm_compute; reflexivity).
    assert (Hc : onDeleteTrack (heap world_ABCD 0) = None) by (vm_compute; reflexivity).
    etransitivity; [exact (Hundo 0 (TrackObj 9) world_ABCD Hd Hc Hn)|].
    vm_compute. reflexivity.
  - apply (Hset 7 world_two_playlists).
    vm_compute. intros H.
    repeat (destruct H as [H | H]; [discriminate H|]). exact H.
Defined.

Lemma splice_past_end (l : list JsVal) (from : Z) :
  (Z.of_nat (List.length l) <= from)%Z ->
  array_get l from = Undefined /\ splice_delete1 l from = l.
Proof.
  intros H. split.
  - unfold array_get. destruct (Z.ltb_spec from 0) as [Hl | Hl]; [lia|].
    apply nth_overflow. lia.
  - unfold splice_delete1, relativeStart.
    destruct (Z.ltb_spec from 0) as [Hl | Hl]; [lia|].
    replace (Nat.min (Z.to_nat from) (List.length l)) with (List.length l) by lia.
    rewrite firstn_all, skipn_all2 by lia. apply app_nil_r.
Qed.

Lemma splice_insert_nonneg {A : Type} (l : list A) (to : Z) (x : A) :
  (0 <= to)%Z ->
  splice_insert l to x
  = firstn (Nat.min (Z.to_nat to) (List.length l)) l
      ++ x :: skipn (Nat.min (Z.to_nat to) (List.length l)) l.
Proof.
  intros H. unfold splice_insert, relativeStart.
  destruct (Z.ltb_spec to 0) as [Hl | Hl]; [lia | reflexivity].
Qed.

(** X6: [moveTrack] with an index past the end.  With [from] past the
    end nothing is removed and [undefined] is inserted at [to], so the
    playlist grows by one entry that is not a track; with [to] past the
    end the track of position [from] becomes the last one. *)
Theorem moveTrack_past_the_end :
  (forall this from to w,
      from <> to ->
      (Z.of_nat (List.length (tracks (heap w this))) <= from)%Z ->
      (0 <= to)%Z ->
      let l := tracks (heap w this) in
      let k := Nat.min (Z.to_nat to) (List.length l) in
      let l' := tracks (heap (Playlist_moveTrack this from to w) this) in
      l' = firstn k l ++ Undefined :: skipn k l /\
      List.length l' = S (List.length l)) /\
  (forall this from to w,
      (0 <= from < Z.of_nat (List.length (tracks (heap w this))))%Z ->
      (Z.of_nat (List.length (tracks (heap w this))) <= to)%Z ->
      let l := tracks (heap w this) in
      tracks (heap (Playlist_moveTrack this from to w) this)
      = (firstn (Z.to_nat from) l ++ skipn (S (Z.to_nat from)) l)
          ++ [nth (Z.to_nat from) l Undefined]).
Proof.
  split.
  - intros this from to w Hne Hf Ht. cbv zeta.
    assert (E : (from =? to)%Z = false) by now apply Z.eqb_neq.
    destruct (Playlist_moveTrack_spec this from to w) as (Hh & _).
    rewrite Hh, E, Nat.eqb_refl. cbn [tracks with_tracks].
    destruct (splice_past_end _ _ Hf) as (-> & ->).
    rewrite splice_insert_nonneg by assumption.
    split; [reflexivity|].
    rewrite length_app. cbn [List.length].
    rewrite length_firstn, length_skipn. lia.
  - intros this from to w Hf Ht. cbv zeta.
    assert (E : (from =? to)%Z = false) by (apply Z.eqb_neq; lia).
    destruct (Playlist_moveTrack_spec this from to w) as (Hh & _).
    rewrite Hh, E, Nat.eqb_refl. cbn [tracks with_tracks].
    set (l := tracks (heap w this)) in *.
    assert (Hd : splice_delete1 l from
                 = firstn (Z.to_nat from) l ++ skipn (S (Z.to_nat from)) l).
    { unfold splice_delete1, relativeStart.
      destruct (Z.ltb_spec from 0) as [Hl | Hl]; [lia|].
      replace (Nat.min (Z.to_nat from) (List.length l)) with (Z.to_nat from) by lia.
      reflexivity. }
    rewrite Hd.
    set (rest := firstn (Z.to_nat from) l ++ skipn (S (Z.to_nat from)) l).
    assert (Hlen : List.length rest = List.length l - 1).
    { unfold rest. rewrite length_app, length_firstn, length_skipn. lia. }
    rewrite splice_insert_nonneg by lia.
    replace (Nat.min (Z.to_nat to) (List.length rest)) with (List.length rest) by lia.
    rewrite firstn_all, skipn_all. f_equal. f_equal.
    unfold array_get. destruct (Z.ltb_spec from 0) as [Hl | Hl]; [lia | reflexivity].
Qed.

(** The theorem on [A, B, C, D]: [moveTrack(7, 1)] and
    [moveTrack(1, 7)]. *)
Lemma moveTrack_past_the_end_witness :
  tracks (heap (Playlist_moveTrack 0 7 1 world_ABCD) 0)
  = [trackA; Undefined; trackB; trackC; trackD] /\
  tracks (heap (Playlist_moveTrack 0 1 7 world_ABCD) 0)
  = [trackA; trackC; trackD; trackB].
Proof.
  destruct moveTrack_past_the_end as (Hfrom & Hto).
  split.
  - assert (Hne : (7 <> 1)%Z) by discriminate.
    assert (Hf : (Z.of_nat (List.length (tracks (heap world_ABCD 0%nat))) <= 7)%Z)
      by (vm_compute; discriminate).
    assert (Ht : (0 <= 1)%Z) by discriminate.
    destruct (Hfrom 0 7%Z 1%Z world_ABCD Hne Hf Ht) as (H & _).
    etransitivity; [exact H|]. vm_compute. reflexivity.
  - assert (Hf : (0 <= 1 < Z.of_nat (List.length (tracks (heap world_ABCD 0%nat))))%Z)
      by (vm_compute; split; [discriminate | reflexivity]).
    assert (Ht : (Z.of_nat (List.length (tracks (heap world_ABCD 0%nat))) <= 7)%Z)
      by (vm_compute; discriminate).
    etransitivity; [exact (Hto 0 1%Z 7%Z world_ABCD Hf Ht)|].
    vm_compute. reflexivity.
Defined.

(* ================================================================== *)
(** ** uniqueTitle: the title is new, and there is one *)

Lemma string_of_nat_inj (a b : nat) : string_of_nat a = string_of_nat b -> a = b.
Proof.
  unfold string_of_nat. intros H.
  apply DecimalNat.Unsigned.to_uint_inj.
  pose proof (NilEmpty.usu (Nat.to_uint a)) as Ha.
  pose proof (NilEmpty.usu (Nat.to_uint b)) as Hb.
  rewrite H in Ha. congruence.
Qed.

Lemma append_inj (p a b : string) : String.append p a = String.append p b -> a = b.
Proof.
  induction p as [|c p IH]; cbn; intros H; [exact H|].
  injection H as H. now apply IH.
Qed.

Lemma numbered_title_inj (a b : nat) : numbered_title a = numbered_title b -> a = b.
Proof. unfold numbered_title. intros H. apply string_of_nat_inj. now apply append_inj in H. Qed.

(** The loop leaves the models, the stack and the trace alone. *)
Lemma uniqueTitle_loop_frame (k n : nat) (w : World) :
  let w' := snd (uniqueTitle_loop k n w) in
  heap w' = heap w /\ myPlaylists w' = myPlaylists w /\
  History w' = History w /\ trace w' = trace w /\ player w' = player w.
Proof.
  revert n w. induction k as [|k IH]; intros n w; [repeat split|].
  cbn [uniqueTitle_loop]. cbv zeta.
  destruct (negb _).
  - repeat split.
  - destruct (IH (S n) (set_window_title
                          (String.append "Playlist " (string_of_nat n)) w))
      as (H1 & H2 & H3 & H4 & H5).
    cbv zeta in *. now rewrite H1, H2, H3, H4, H5.
Qed.

(** A title the loop returns is a numbered title nobody has, and every
    smaller number the loop went through is taken. *)
Lemma uniqueTitle_loop_some (k n : nat) (w : World) (t : string) :
  fst (uniqueTitle_loop k n w) = Some t ->
  exists N, n <= N < n + k /\ t = numbered_title N /\ ~ taken w N.
Proof.
  revert n w. induction k as [|k IH]; intros n w H; [discriminate|].
  cbn [uniqueTitle_loop] in H.
  change (String.append "Playlist " (string_of_nat n)) with (numbered_title n) in H.
  cbv zeta in H.
  change (heap (set_window_title (numbered_title n) w)) with (heap w) in H.
  change (myPlaylists (set_window_title (numbered_title n) w))
    with (myPlaylists w) in H.
  destruct (existsb _ _) eqn:E; cbn [negb] in H.
  - destruct (IH _ _ H) as (N & Hr & Ht & Hfree).
    exists N. split; [lia|]. split; [exact Ht|]. exact Hfree.
  - exists n. split; [lia|]. split; [now injection H as <-|].
    intros Ht. apply found_taken in Ht. congruence.
Qed.

Lemma uniqueTitle_loop_none_inv (k n : nat) (w : World) :
  fst (uniqueTitle_loop k n w) = None ->
  forall j, n <= j < n + k -> taken w j.
Proof.
  revert n w. induction k as [|k IH]; intros n w H j Hj; [lia|].
  cbn [uniqueTitle_loop] in H.
  change (String.append "Playlist " (string_of_nat n)) with (numbered_title n) in H.
  cbv zeta in H.
  change (heap (set_window_title (numbered_title n) w)) with (heap w) in H.
  change (myPlaylists (set_window_title (numbered_title n) w))
    with (myPlaylists w) in H.
  destruct (existsb _ _) eqn:E; cbn [negb] in H; [|discriminate].
  destruct (Nat.eq_dec j n) as [-> | Hne].
  - now apply found_taken.
  - apply (IH (S n) _ H). lia.
Qed.

(** When every number of a range is taken, the set has at least as many
    playlists as the range has numbers. *)
Lemma taken_range_length (w : World) (n k : nat) :
  (forall j, n <= j < n + k -> taken w j) ->
  k <= List.length (playlists (myPlaylists w)).
Proof.
  intros Hall.
  set (titles := map (fun p => title (heap w p)) (playlists (myPlaylists w))).
  assert (Hincl : incl (map numbered_title (seq n k)) titles).
  { intros t Ht. apply in_map_iff in Ht. destruct Ht as (j & <- & Hj).
    apply in_seq in Hj. destruct (Hall j Hj) as (p & Hp & Htp).
    unfold titles. apply in_map_iff. exists p. now split. }
  assert (Hnd : NoDup (map numbered_title (seq n k))).
  { apply Finite.Injective_map_NoDup; [|apply seq_NoDup].
    intros a b. apply numbered_title_inj. }
  pose proof (NoDup_incl_length Hnd Hincl) as Hlen.
  unfold titles in Hlen. rewrite !length_map, length_seq in Hlen. exact Hlen.
Qed.

Lemma PlaylistSet_uniqueTitle_loop w :
  PlaylistSet_uniqueTitle w = uniqueTitle_loop 999 1 w.
Proof. reflexivity. Qed.

(** X7: the title [uniqueTitle] returns is the title of no playlist of
    the set; a set of fewer than 999 playlists always gets one; and the
    call changes neither the models, nor the stack, nor the trace (it
    only assigns the global [title]). *)
Theorem uniqueTitle_is_new :
  (forall w t,
      fst (PlaylistSet_uniqueTitle w) = Some t ->
      forall p, In p (playlists (myPlaylists w)) -> title (heap w p) <> t) /\
  (forall w,
      List.length (playlists (myPlaylists w)) < 999 ->
      exists t, fst (PlaylistSet_uniqueTitle w) = Some t) /\
  (forall w,
      let w' := snd (PlaylistSet_uniqueTitle w) in
      heap w' = heap w /\ myPlaylists w' = myPlaylists w /\
      History w' = History w /\ trace w' = trace w).
Proof.
  split; [|split].
  - intros w t H p Hp Ht. rewrite PlaylistSet_uniqueTitle_loop in H.
    destruct (uniqueTitle_loop_some _ _ _ _ H) as (N & _ & -> & Hfree).
    apply Hfree. exists p. now split.
  - intros w Hlen. rewrite PlaylistSet_uniqueTitle_loop.
    destruct (fst (uniqueTitle_loop 999 1 w)) as [t|] eqn:E; [now exists t|].
    pose proof (taken_range_length w 1 999
                  (uniqueTitle_loop_none_inv 999 1 w E)) as Hge.
    exfalso. apply (Nat.lt_irrefl 999).
    eapply Nat.le_lt_trans; [exact Hge | exact Hlen].
  - intros w. cbv zeta. rewrite PlaylistSet_uniqueTitle_loop.
    destruct (uniqueTitle_loop_frame 999 1 w) as (H1 & H2 & H3 & H4 & _).
    split; [exact H1 | split; [exact H2 | split; [exact H3 | exact H4]]].
Qed.

(** The theorem on the set that holds only ["Playlist 1"]. *)
Lemma uniqueTitle_is_new_witness :
  (exists t, fst (PlaylistSet_uniqueTitle world_one_titled) = Some t) /\
  title (heap world_one_titled 5) <> "Playlist 2".
Proof.
  destruct uniqueTitle_is_new as (Hnew & Hsome & _).
  split.
  - apply Hsome. vm_compute. lia.
  - apply (Hnew world_one_titled "Playlist 2").
    + vm_compute. reflexivity.
    + vm_compute. left. reflexivity.
Defined.

(* ================================================================== *)
(** ** The player and the models *)

Lemma History_update_player w : player (History_update w) = player w.
Proof.
  unfold History_update.
  destruct (0 <? _)%nat; [destruct (nth_error _ _)|]; reflexivity.
Qed.

Lemma History_log_player d rv w : player (History_log d rv w) = player w.
Proof.
  unfold History_log. cbn [History emit]. destruct (negb _); [|reflexivity].
  now rewrite History_update_player.
Qed.

Lemma Player_stop_stopped w : player_stopped (player (Player_stop w)).
Proof.
  destruct w as [h s H b ls wi wt [pl i snd nx lab oc] tr].
  destruct snd; repeat split.
Qed.

Lemma Player_stop_keeps_stopped w :
  player_stopped (player w) -> player (Player_stop w) = player w.
Proof.
  destruct w as [h s H b ls wi wt [pl i snd nx lab oc] tr].
  intros (Hi & Hs & Hl & Hc). cbn in Hi, Hs, Hl, Hc. subst. reflexivity.
Qed.

Lemma fire_stopped this slot cb args w :
  player_stopped (player w) -> player_stopped (player (fire this slot cb args w)).
Proof.
  intros H. destruct cb as [[v|]|]; unfold fire, run_callback; try exact H.
  apply Player_stop_stopped.
Qed.

Lemma fire_PlayerStop this slot args w :
  player_stopped (player (fire this slot (Some PlayerStop) args w)).
Proof. unfold fire, run_callback. apply Player_stop_stopped. Qed.

Lemma fire_PlayerStop_events this slot args w s :
  sound (player w) = Some s ->
  In (SoundStop s) (fire_events this slot (Some PlayerStop) args w).
Proof.
  intros H. cbn [fire_events]. right. unfold stop_events. rewrite H. now left.
Qed.

(** A track mutator starts with the [onTracksChange] hook. *)
Lemma track_mutator_starts_with_hook (m : Mutator) (pl : PlaylistRef) (w : World) :
  track_mutator_of m = Some pl ->
  let w1 := fire (Some pl) OnTracksChange (onTracksChange (heap w pl)) [] w in
  (player_stopped (player w1) -> player_stopped (player (mutate m w))) /\
  exists es, trace (mutate m w) = trace w1 ++ es.
Proof.
  destruct m as [p | p | this t | this d | this track | this track | this from to];
    cbn [track_mutator_of mutate]; try discriminate; intros [= <-]; cbv zeta.
  - split.
    + intros H. unfold Playlist_addTrack. cbv zeta.
      change (player (PlaylistSet_save ?x)) with (player x).
      rewrite History_log_player. now apply fire_stopped.
    + unfold Playlist_addTrack. eexists. traces. rewrite <- !app_assoc.
      do 2 f_equal.
  - split.
    + intros H. unfold Playlist_deleteTrack. cbv zeta.
      change (player (PlaylistSet_save ?x)) with (player x).
      rewrite History_log_player. now apply fire_stopped.
    + unfold Playlist_deleteTrack. eexists. traces. rewrite <- !app_assoc.
      do 2 f_equal.
  - unfold Playlist_moveTrack. cbv zeta. destruct (from =? to)%Z.
    + split; [exact (fun H => H)|]. exists []. now rewrite app_nil_r.
    + split.
      * intros H. change (player (PlaylistSet_save ?x)) with (player x).
        rewrite History_log_player. now apply fire_stopped.
      * eexists. traces. rewrite <- !app_assoc. do 2 f_equal.
Qed.

(** X8: while the player is installed in [onTracksChange] of a playlist
    (as [new Player] leaves it), every [addTrack], [deleteTrack] and
    [moveTrack] on that playlist, [moveTrack(i, i)] included, leaves the
    player stopped, and stops the sound that was playing; so does every
    undo that reverts such a call. *)
Theorem track_change_stops_player (pl : PlaylistRef) (w : World) :
  onTracksChange (heap w pl) = Some PlayerStop ->
  (forall m, track_mutator_of m = Some pl ->
             player_stopped (player (mutate m w)) /\
             forall s, sound (player w) = Some s ->
                       In (SoundStop s) (emitted w (mutate m w))) /\
  (forall rs r b,
      History w = mkHistory (rs ++ [r]) b ->
      track_mutator_of (mutator_of (revert r)) = Some pl ->
      player_stopped (player (History_undo w))).
Proof.
  intros Hcb. split.
  - intros m Hm.
    destruct (track_mutator_starts_with_hook m pl w Hm) as (Hst & es & Htr).
    cbv zeta in Hst, Htr. rewrite Hcb in Hst, Htr. split.
    + apply Hst. apply fire_PlayerStop.
    + intros s Hs. rewrite fire_trace, <- app_assoc in Htr.
      rewrite (emitted_app _ _ _ Htr). apply in_or_app. left.
      now apply fire_PlayerStop_events.
  - intros rs r b HH Hm.
    rewrite (History_undo_top _ _ _ _ HH), History_update_player.
    change (player (set_duringUndo false ?x)) with (player x).
    rewrite call_revert_mutate.
    destruct (track_mutator_starts_with_hook (mutator_of (revert r)) pl
                (set_History (mkHistory rs true) w) Hm) as (Hst & _).
    cbv zeta in Hst. rewrite heap_set_History, Hcb in Hst.
    apply Hst. apply fire_PlayerStop.
Qed.

(** The theorem with track 0 playing: adding a track stops sound 10, and
    so does the undo of that call. *)
Lemma track_change_stops_player_witness :
  In (SoundStop 10) (emitted world_started
                             (mutate (AddTrack 0 (TrackObj 5)) world_started)) /\
  index (player (History_undo (mutate (AddTrack 0 (TrackObj 5)) world_started)))
  = (-1)%Z.
Proof.
  assert (Hcb : onTracksChange (heap world_started 0) = Some PlayerStop)
    by (vm_compute; reflexivity).
  split.
  - destruct (track_change_stops_player 0 world_started Hcb) as (Hm & _).
    destruct (Hm (AddTrack 0 (TrackObj 5)) eq_refl) as (_ & Hs).
    apply Hs. vm_compute. reflexivity.
  - assert (Hcb' : onTracksChange
                     (heap (mutate (AddTrack 0 (TrackObj 5)) world_started) 0)
                   = Some PlayerStop) by (vm_compute; reflexivity).
    destruct (track_change_stops_player 0 _ Hcb') as (_ & Hu).
    refine (proj1 (Hu (records (History world_started))
                      (mkRecord "Add Track" (RevDeleteTrack 0 (TrackObj 5)))
                      false _ eq_refl)).
    vm_compute. reflexivity.
Defined.

(* ================================================================== *)
(** ** Player.stop, Player.play and late arrivals *)

(** X9: [stop] always leaves the player stopped.  It stops the playing
    sound, if there is one, and only then forgets the preloaded sound; a
    second [stop] changes nothing; and [stop] never touches the models,
    the stack or the stored snapshot. *)
Theorem stop_leaves_player_stopped (w : World) :
  let w' := Player_stop w in
  player_stopped (player w') /\
  (forall s, sound (player w) = Some s ->
             emitted w w' = [SoundStop s] /\ nextSound (player w') = None) /\
  (sound (player w) = None ->
   emitted w w' = [] /\ nextSound (player w') = nextSound (player w)) /\
  Player_stop w' = w' /\
  heap w' = heap w /\ myPlaylists w' = myPlaylists w /\
  History w' = History w /\ localStorage w' = localStorage w.
Proof.
  cbv zeta. split; [apply Player_stop_stopped|].
  rewrite Player_stop_heap, Player_stop_myPlaylists, Player_stop_History,
    Player_stop_localStorage.
  split; [|split; [|split; [|repeat split]]].
  - intros s Hs. split.
    + apply emitted_app. rewrite Player_stop_trace. unfold stop_events.
      now rewrite Hs.
    + unfold Player_stop, update_player. cbn. rewrite Hs. reflexivity.
  - intros Hs. split.
    + apply emitted_nil. rewrite Player_stop_trace. unfold stop_events.
      rewrite Hs. apply app_nil_r.
    + unfold Player_stop, update_player. cbn. rewrite Hs. reflexivity.
  - destruct w as [h s H b ls wi wt [pl i snd nx lab oc] tr].
    destruct snd; reflexivity.
Qed.

(** The theorem with track 0 playing. *)
Lemma stop_leaves_player_stopped_witness :
  emitted world_started (Player_stop world_started) = [SoundStop 10].
Proof.
  destruct (stop_leaves_player_stopped world_started) as (_ & Hs & _).
  refine (proj1 (Hs 10 _)). vm_compute. reflexivity.
Defined.

(** [play] on a playlist that has a first entry. *)
Lemma Player_play_first (w : World) (x : JsVal) (rest : list JsVal) :
  player_tracks w = x :: rest ->
  Player_play w =
  SC_stream x ThenPlaySound
    (update_player (fun p => with_index (index p + 1) p)
       (update_player (with_nextSound None)
          (update_player (with_index (-1))
             (update_player (with_button "Stop" ClickStop) w)))).
Proof.
  intros Hl. unfold Player_play. cbv zeta.
  rewrite playNextTrack_in_range.
  - cbv zeta. cbn [player update_player set_player nextSound with_nextSound
                     index with_index].
    change (player_tracks
              (update_player (with_nextSound None)
                 (update_player (with_index (-1))
                    (update_player (with_button "Stop" ClickStop) w))))
      with (player_tracks w).
    rewrite Hl. reflexivity.
  - change (player_tracks
              (update_player (with_nextSound None)
                 (update_player (with_index (-1))
                    (update_player (with_button "Stop" ClickStop) w))))
      with (player_tracks w).
    rewrite Hl. cbn. lia.
Qed.

(** X10: [play] on a playlist whose first entry is a track always starts
    from that track with a fresh request: the index is 0, a preloaded
    sound left over from before is dropped, the button offers Stop, and
    the only event is the request of the first track.  A sound that was
    playing is neither stopped nor forgotten. *)
Theorem play_starts_from_first_track (w : World) (t : nat) (rest : list JsVal) :
  player_tracks w = TrackObj t :: rest ->
  let w' := Player_play w in
  index (player w') = 0%Z /\
  nextSound (player w') = None /\
  sound (player w') = sound (player w) /\
  innerHTML (player w') = "Stop" /\
  onclick (player w') = ClickStop /\
  emitted w w' = [SCStream t ThenPlaySound].
Proof.
  intros Hl. cbv zeta. rewrite (Player_play_first w _ _ Hl).
  cbn [SC_stream]. repeat split. apply emitted_app. reflexivity.
Qed.

(** The theorem when Play is clicked while track 1 plays and the sound of
    track 2 is preloaded. *)
Lemma play_starts_from_first_track_witness :
  nextSound (player (Player_play world_playing_preloaded)) = None /\
  sound (player (Player_play world_playing_preloaded)) = Some 11 /\
  emitted world_playing_preloaded (Player_play world_playing_preloaded)
  = [SCStream 1 ThenPlaySound].
Proof.
  assert (Hl : player_tracks world_playing_preloaded
               = TrackObj 1 :: [trackB; trackC; trackD])
    by (vm_compute; reflexivity).
  destruct (play_starts_from_first_track world_playing_preloaded 1 _ Hl)
    as (_ & Hn & Hs & _ & _ & He).
  split; [exact Hn|]. split; [|exact He].
  etransitivity; [exact Hs|]. vm_compute. reflexivity.
Defined.

(** [playSound], in full. *)
Lemma Player_playSound_spec (s : SoundRef) (w : World) :
  let w' := Player_playSound s w in
  player w' = with_nextSound None (with_sound (Some s) (player w)) /\
  heap w' = heap w /\ myPlaylists w' = myPlaylists w /\
  History w' = History w /\ localStorage w' = localStorage w /\
  trace w' = trace w ++ SoundPlay s
               :: (if (index (player w) + 1 <? Z.of_nat (List.length (player_tracks w)))%Z
                   then match array_get (player_tracks w) (index (player w) + 1) with
                        | TrackObj t => [SCStream t ThenSetNextSound]
                        | Undefined => [TypeError]
                        end
                   else []).
Proof.
  unfold Player_playSound. cbv zeta.
  change (player_tracks
            (update_player (with_nextSound None)
               (emit (SoundPlay s) (update_player (with_sound (Some s)) w))))
    with (player_tracks w).
  cbn [player update_player set_player emit index with_nextSound with_sound].
  destruct (index (player w) + 1 <? Z.of_nat (List.length (player_tracks w)))%Z.
  - unfold SC_stream. destruct (array_get _ _); cbn;
      rewrite <- app_assoc; repeat split.
  - cbn. repeat split.
Qed.

(** X12: [stop] does not cancel a request that is under way.  When the
    requested sound arrives after [stop], [playSound] starts it all the
    same: a sound plays while the index is -1 and the button offers
    Play. *)
Theorem arrival_after_stop_plays (w : World) (s : SoundRef) :
  let w1 := Player_stop w in
  let w2 := stream_ready ThenPlaySound s w1 in
  sound (player w2) = Some s /\
  index (player w2) = (-1)%Z /\
  innerHTML (player w2) = "Play" /\
  onclick (player w2) = ClickPlay /\
  hd_error (emitted w1 w2) = Some (SoundPlay s).
Proof.
  cbv zeta. cbn [stream_ready].
  destruct (Player_playSound_spec s (Player_stop w)) as (Hp & _ & _ & _ & _ & Ht).
  cbv zeta in Hp, Ht. rewrite Hp.
  destruct (Player_stop_stopped w) as (Hi & _ & Hl & Hc).
  cbn [sound index innerHTML onclick with_nextSound with_sound].
  repeat split; try assumption.
  eapply emitted_hd. exact Ht.
Qed.

(** The theorem when the user clicks Play and then Stop before the
    sound of the first track arrives. *)
Lemma arrival_after_stop_plays_witness :
  let w := player_click (player_click (Player_new 0 world_ABCD)) in
  innerHTML (player w) = "Play" /\
  sound (player (stream_ready ThenPlaySound 10 w)) = Some 10 /\
  innerHTML (player (stream_ready ThenPlaySound 10 w)) = "Play".
Proof.
  cbv zeta.
  assert (E : player_click (player_click (Player_new 0 world_ABCD))
              = Player_stop (player_click (Player_new 0 world_ABCD)))
    by (vm_compute; reflexivity).
  rewrite E.
  destruct (arrival_after_stop_plays (player_click (Player_new 0 world_ABCD)) 10)
    as (Hs & _ & Hl & _).
  split; [|split; [exact Hs | exact Hl]].
  vm_compute. reflexivity.
Defined.

(* ================================================================== *)
(** ** What the player never touches *)

Lemma player_keeps_refl w : player_keeps w w.
Proof. repeat split. Qed.

Lemma player_keeps_trans w1 w2 w3 :
  player_keeps w1 w2 -> player_keeps w2 w3 -> player_keeps w1 w3.
Proof.
  intros (A1 & A2 & A3 & A4 & A5 & A6) (B1 & B2 & B3 & B4 & B5 & B6).
  repeat split; congruence.
Qed.

Lemma player_keeps_update f w :
  playlist (f (player w)) = playlist (player w) ->
  player_keeps w (update_player f w).
Proof. intros H. repeat split. exact H. Qed.

Lemma player_keeps_stop w : player_keeps w (Player_stop w).
Proof.
  destruct w as [h s H b ls wi wt [pl i snd nx lab oc] tr].
  destruct snd; repeat split.
Qed.

Lemma player_keeps_SC_stream x k w : player_keeps w (SC_stream x k w).
Proof. destruct x; repeat split. Qed.

Lemma player_keeps_playSound s w : player_keeps w (Player_playSound s w).
Proof.
  unfold Player_playSound. cbv zeta.
  match goal with |- context [if ?c then _ else _] => destruct c end.
  - eapply player_keeps_trans; [|apply player_keeps_SC_stream]. repeat split.
  - repeat split.
Qed.

Lemma player_keeps_playNextTrack w : player_keeps w (Player_playNextTrack w).
Proof.
  unfold Player_playNextTrack. cbv zeta.
  match goal with |- context [if ?c then _ else _] => destruct c end.
  - eapply player_keeps_trans; [|apply player_keeps_stop]. repeat split.
  - match goal with |- context [match ?x with Some _ => _ | None => _ end] =>
      destruct x end.
    + eapply player_keeps_trans; [|apply player_keeps_playSound]. repeat split.
    + eapply player_keeps_trans; [|apply player_keeps_SC_stream]. repeat split.
Qed.

Lemma player_keeps_play w : player_keeps w (Player_play w).
Proof.
  unfold Player_play. cbv zeta.
  eapply player_keeps_trans; [|apply player_keeps_playNextTrack]. repeat split.
Qed.

Lemma player_keeps_step e w : player_keeps w (player_step e w).
Proof.
  destruct e as [| |k s]; cbn [player_step].
  - unfold player_click. destruct (onclick (player w)).
    + apply player_keeps_refl.
    + apply player_keeps_play.
    + apply player_keeps_stop.
  - apply player_keeps_playNextTrack.
  - destruct k; cbn [stream_ready].
    + apply player_keeps_playSound.
    + repeat split.
Qed.

(** X13: whatever the user clicks on the player button and whatever the
    audio engine delivers, in any order, the player changes neither a
    playlist, nor the set, nor the undo stack or its button, nor the
    stored snapshot, and it stays on its playlist. *)
Theorem player_never_changes_models (es : list PlayerEvent) (w : World) :
  let w' := player_run es w in
  heap w' = heap w /\ myPlaylists w' = myPlaylists w /\
  History w' = History w /\ undoButton w' = undoButton w /\
  localStorage w' = localStorage w /\
  playlist (player w') = playlist (player w).
Proof.
  cbv zeta. change (player_keeps w (player_run es w)).
  revert w. induction es as [|e es IH]; intros w.
  - apply player_keeps_refl.
  - change (player_run (e :: es) w) with (player_run es (player_step e w)).
    eapply player_keeps_trans; [apply player_keeps_step | apply IH].
Qed.

(* ================================================================== *)
(** ** Playing a playlist through *)

(** The request [playSound] makes when it starts the entry [cur]. *)
Lemma preload_after (l pre rest : list JsVal) (cur : JsVal) (i : Z) :
  l = pre ++ cur :: rest ->
  i = Z.of_nat (List.length pre) ->
  (if (i + 1 <? Z.of_nat (List.length l))%Z
   then match array_get l (i + 1) with
        | TrackObj t => [SCStream t ThenSetNextSound]
        | Undefined => [TypeError]
        end
   else []) = preload_request rest.
Proof.
  intros -> ->. rewrite length_app. cbn [List.length].
  destruct rest as [|y rest].
  - cbn [List.length preload_request].
    destruct (Z.ltb_spec (Z.of_nat (List.length pre) + 1)
                (Z.of_nat (List.length pre + 1))) as [H | H]; [lia | reflexivity].
  - cbn [List.length preload_request].
    destruct (Z.ltb_spec (Z.of_nat (List.length pre) + 1)
                (Z.of_nat (List.length pre + S (S (List.length rest)))))
      as [H | H]; [|lia].
    replace (Z.of_nat (List.length pre) + 1)%Z
      with (Z.of_nat (List.length (pre ++ [cur])))
      by (rewrite length_app; cbn [List.length]; lia).
    change (pre ++ cur :: y :: rest) with (pre ++ [cur] ++ y :: rest).
    rewrite app_assoc, array_get_at. destruct y; reflexivity.
Qed.

(** One step of playback without gaps: the preloaded sound of the next
    track arrives, the current track finishes, and the preloaded sound
    starts. *)
Lemma gapless_body (w : World) (s : SoundRef) (pre rest : list JsVal)
      (cur : JsVal) (t : nat) :
  player_tracks w = pre ++ cur :: TrackObj t :: rest ->
  index (player w) = Z.of_nat (List.length pre) ->
  let w' := sound_finished (stream_ready ThenSetNextSound s w) in
  heap w' = heap w /\
  playlist (player w') = playlist (player w) /\
  index (player w') = Z.of_nat (List.length (pre ++ [cur])) /\
  nextSound (player w') = None /\
  trace w' = trace w ++ SoundPlay s :: preload_request rest.
Proof.
  intros Hl Hi. cbv zeta. cbn [stream_ready]. unfold sound_finished.
  set (w1 := update_player (with_nextSound (Some s)) w).
  assert (Hl1 : player_tracks w1 = player_tracks w) by reflexivity.
  assert (Hi1 : index (player w1) = index (player w)) by reflexivity.
  rewrite playNextTrack_in_range.
  2:{ rewrite Hl1, Hi1, Hl, Hi, length_app. cbn [List.length]. lia. }
  cbv zeta. change (nextSound (player w1)) with (Some s). cbv beta iota.
  match goal with |- context [Player_playSound s ?x] =>
    set (w2 := x);
    destruct (Player_playSound_spec s w2) as (Hp & Hh & _ & _ & _ & Ht) end.
  cbv zeta in Hp, Ht. rewrite Hp, Hh, Ht.
  assert (Hl2 : player_tracks w2 = pre ++ [cur] ++ TrackObj t :: rest)
    by (change (player_tracks w2) with (player_tracks w); exact Hl).
  assert (Hi2 : index (player w2) = Z.of_nat (List.length (pre ++ [cur]))).
  { change (index (player w2)) with (index (player w) + 1)%Z.
    rewrite Hi, length_app. cbn [List.length]. lia. }
  rewrite app_assoc in Hl2.
  rewrite (preload_after _ _ _ _ _ Hl2 Hi2).
  repeat split. exact Hi2.
Qed.

Lemma gapless_from_spec (ss : list SoundRef) :
  forall (ts : list nat) (w : World) (pre : list JsVal) (cur : JsVal)
         (tr0 : list Event),
    List.length ss = List.length ts ->
    player_tracks w = pre ++ cur :: map TrackObj ts ->
    index (player w) = Z.of_nat (List.length pre) ->
    nextSound (player w) = None ->
    trace w = tr0 ++ preload_request (map TrackObj ts) ->
    let w' := gapless_from ss w in
    player_tracks w' = player_tracks w /\
    index (player w') = Z.of_nat (List.length pre + List.length ts) /\
    nextSound (player w') = None /\
    trace w' = tr0 ++ flat_map (fun p => [SCStream (fst p) ThenSetNextSound;
                                          SoundPlay (snd p)])
                               (combine ts ss).
Proof.
  induction ss as [|s ss IH]; intros ts w pre cur tr0 Hlen Hl Hi Hn Htr.
  - destruct ts; [|discriminate]. cbn in *.
    rewrite Nat.add_0_r. now rewrite app_nil_r in Htr |- *.
  - destruct ts as [|t ts]; [discriminate|]. injection Hlen as Hlen.
    cbn [gapless_from fold_left]. cbn [map] in Hl, Htr.
    destruct (gapless_body w s pre (map TrackObj ts) cur t Hl Hi)
      as (Hh & Hpl & Hi' & Hn' & Htr').
    cbv zeta in Hh, Hpl, Hi', Hn', Htr'.
    set (w1 := sound_finished (stream_ready ThenSetNextSound s w)) in *.
    assert (Hl1 : player_tracks w1 = player_tracks w).
    { unfold player_tracks. now rewrite Hh, Hpl. }
    cbn [preload_request] in Htr.
    destruct (IH ts w1 (pre ++ [cur]) (TrackObj t)
                 (tr0 ++ [SCStream t ThenSetNextSound; SoundPlay s]))
      as (Hl2 & Hi2 & Hn2 & Htr2).
    + exact Hlen.
    + rewrite Hl1, Hl, <- app_assoc. reflexivity.
    + exact Hi'.
    + exact Hn'.
    + rewrite Htr', Htr, <- !app_assoc. reflexivity.
    + cbv zeta in Hl2, Hi2, Hn2, Htr2.
      change (fold_left
                (fun (w0 : World) (s0 : SoundRef) =>
                   sound_finished (stream_ready ThenSetNextSound s0 w0)) ss w1)
        with (gapless_from ss w1).
      rewrite Hl2, Hi2, Hn2, Htr2. split; [exact Hl1|].
      split; [|split; [reflexivity|]].
      * rewrite length_app. cbn [List.length]. f_equal. lia.
      * cbn [combine flat_map fst snd]. rewrite <- app_assoc. reflexivity.
Qed.

(** X11: playing a playlist of tracks through.  After Play, when the
    sound of the first track arrives and every preloaded sound arrives
    while the track before it plays, the player requests the sound of
    each track exactly once, in order, starts each sound exactly once, in
    order, without any further request, and stops after the last one. *)
Theorem gapless_playback (w : World) (t0 : nat) (ts : list nat)
        (s0 : SoundRef) (ss : list SoundRef) :
  player_tracks w = map TrackObj (t0 :: ts) ->
  List.length ss = List.length ts ->
  let w' := play_through s0 ss w in
  emitted w w'
  = SCStream t0 ThenPlaySound :: SoundPlay s0
      :: flat_map (fun p => [SCStream (fst p) ThenSetNextSound; SoundPlay (snd p)])
                  (combine ts ss) /\
  player_stopped (player w') /\
  nextSound (player w') = None.
Proof.
  intros Hl Hlen. cbv zeta. unfold play_through. cbn [map] in Hl.
  rewrite (Player_play_first w _ _ Hl). cbn [SC_stream stream_ready].
  match goal with |- context [Player_playSound s0 ?x] =>
    set (wa := x);
    destruct (Player_playSound_spec s0 wa) as (Hp & Hh & _ & _ & _ & Ht) end.
  cbv zeta in Hp, Ht.
  set (wb := Player_playSound s0 wa) in *.
  assert (Hla : player_tracks wa = [] ++ TrackObj t0 :: map TrackObj ts)
    by (change (player_tracks wa) with (player_tracks w); exact Hl).
  assert (Hia : index (player wa) = Z.of_nat (List.length (@nil JsVal)))
    by reflexivity.
  rewrite (preload_after _ _ _ _ _ Hla Hia) in Ht.
  assert (Hlb : player_tracks wb = [] ++ TrackObj t0 :: map TrackObj ts).
  { unfold player_tracks. rewrite Hh, Hp. exact Hla. }
  destruct (gapless_from_spec ss ts wb [] (TrackObj t0)
              (trace w ++ [SCStream t0 ThenPlaySound; SoundPlay s0]))
    as (Hl2 & Hi2 & Hn2 & Htr2).
  - exact Hlen.
  - exact Hlb.
  - rewrite Hp. reflexivity.
  - rewrite Hp. reflexivity.
  - rewrite Ht. change (trace wa) with (trace w ++ [SCStream t0 ThenPlaySound]).
    rewrite <- !app_assoc. reflexivity.
  - cbv zeta in Hl2, Hi2, Hn2, Htr2.
    set (wc := gapless_from ss wb) in *.
    destruct (playNextTrack_at_end wc) as (Hpe & Hte).
    { rewrite Hl2, Hlb, Hi2, app_nil_l.
      change (List.length (TrackObj t0 :: map TrackObj ts))
        with (S (List.length (map TrackObj ts))).
      rewrite length_map. change (List.length (@nil JsVal)) with 0. lia. }
    cbv zeta in Hpe, Hte. unfold sound_finished.
    rewrite Hpe. cbn [nextSound]. split; [|split; [repeat split | exact Hn2]].
    apply emitted_app. rewrite Hte, Htr2, <- app_assoc. reflexivity.
Qed.

(** The theorem on [A, B, C, D]. *)
Lemma gapless_playback_witness :
  emitted (Player_new 0 world_ABCD)
          (play_through 10 [11; 12; 13] (Player_new 0 world_ABCD))
  = [SCStream 1 ThenPlaySound; SoundPlay 10;
     SCStream 2 ThenSetNextSound; SoundPlay 11;
     SCStream 3 ThenSetNextSound; SoundPlay 12;
     SCStream 4 ThenSetNextSound; SoundPlay 13].
Proof.
  assert (Hl : player_tracks (Player_new 0 world_ABCD) = map TrackObj [1; 2; 3; 4])
    by (vm_compute; reflexivity).
  exact (proj1 (gapless_playback (Player_new 0 world_ABCD) 1 [2; 3; 4]
                  10 [11; 12; 13] Hl eq_refl)).
Defined.

(* ================================================================== *)
(** ** The playlist view follows the model *)

Lemma view_after_app v l1 l2 l :
  view_after v (l1 ++ l2) l
  = fold_left (fun l e => view_event v e l) l2 (view_after v l1 l).
Proof. unfold view_after. apply fold_left_app. Qed.

Lemma view_ignores_stop v w l :
  fold_left (fun l e => view_event v e l) (stop_events w) (Some l) = Some l.
Proof. unfold stop_events. destruct (sound (player w)); reflexivity. Qed.

Lemma view_ignores_hook v slot this cb args w l :
  match slot with
  | OnAddTrack | OnDeleteTrack | OnMoveTrack => False
  | _ => True
  end ->
  view_after v (fire_events this slot cb args w) l = Some l.
Proof.
  intros Hs. unfold view_after.
  destruct cb as [[v'|]|]; cbn [fire_events fold_left]; try reflexivity.
  - destruct slot; try contradiction; reflexivity.
  - replace (view_event v (Notify slot PlayerStop args (observe this w)) (Some l))
      with (Some l) by (destruct slot; reflexivity).
    apply view_ignores_stop.
Qed.

Lemma view_get_array_get (l : list JsVal) (i : Z) :
  (0 <= i < Z.of_nat (List.length l))%Z ->
  view_get l i = Some (array_get l i).
Proof.
  intros H. unfold view_get, array_get.
  destruct (Z.ltb_spec i 0) as [Hl | Hl]; [lia|].
  apply nth_error_nth'. lia.
Qed.

Lemma view_get_indexOf (l : list JsVal) (track : JsVal) :
  In track l -> view_get l (indexOf JsVal_eqb l track) = Some track.
Proof.
  intros Hin.
  destruct (In_first_split JsVal_eqb JsVal_eqb_eq track l Hin) as (l1 & l2 & -> & Hn).
  rewrite (indexOf_first JsVal_eqb JsVal_eqb_eq) by assumption.
  unfold view_get.
  destruct (Z.ltb_spec (Z.of_nat (List.length l1)) 0) as [Hl | Hl]; [lia|].
  rewrite Nat2Z.id, nth_error_app2, Nat.sub_diag by lia. reflexivity.
Qed.

(** What the view makes of the events of one mutator call on its
    playlist. *)
Lemma view_follows_call (v : nat) (pl : PlaylistRef) (m : Mutator) (w : World) :
  self m = Some pl ->
  view_installed v pl w ->
  view_can_follow m w ->
  view_after v (emitted w (mutate m w)) (tracks (heap w pl))
  = Some (tracks (heap (mutate m w) pl)).
Proof.
  intros Hself (Hadd & Hdel & Hmov) Hcan.
  destruct m as [p | p | this t | this d | this track | this track | this from to];
    cbn [self mutate view_can_follow] in *; try discriminate;
    injection Hself as ->.
  - (* setTitle *)
    destruct (Playlist_setTitle_spec pl t w) as (-> & _).
    rewrite heap_with_same. cbn [tracks with_title].
    assert (Htr : exists cb w1 b d,
               trace (Playlist_setTitle pl t w)
               = trace w ++ fire_events (Some pl) OnTitleChange cb [AStr t] w1
                   ++ [LogCall "Set Description" b; Saved d]).
    { unfold Playlist_setTitle. do 4 eexists. traces.
      rewrite <- !app_assoc. cbn [app]. reflexivity. }
    destruct Htr as (cb & w1 & b & d & Htr).
    rewrite (emitted_app _ _ _ Htr), view_after_app, view_ignores_hook by exact I.
    reflexivity.
  - (* setDescription *)
    destruct (Playlist_setDescription_spec pl d w) as (-> & _).
    rewrite heap_with_same. cbn [tracks with_description].
    assert (Htr : exists cb w1 b d',
               trace (Playlist_setDescription pl d w)
               = trace w ++ fire_events (Some pl) OnDescriptionChange cb [AStr d] w1
                   ++ [LogCall "Set Description" b; Saved d']).
    { unfold Playlist_setDescription. do 4 eexists. traces.
      rewrite <- !app_assoc. cbn [app]. reflexivity. }
    destruct Htr as (cb & w1 & b & d' & Htr).
    rewrite (emitted_app _ _ _ Htr), view_after_app, view_ignores_hook by exact I.
    reflexivity.
  - (* addTrack *)
    destruct (Playlist_addTrack_spec pl track w) as (-> & _).
    rewrite heap_with_same. cbn [tracks with_tracks].
    assert (Htr : exists seen b d,
               trace (Playlist_addTrack pl track w)
               = trace w ++ fire_events (Some pl) OnTracksChange
                              (onTracksChange (heap w pl)) [] w
                   ++ Notify OnAddTrack (ViewCallback v) [AVal track] seen
                   :: [LogCall "Add Track" b; Saved d]).
    { unfold Playlist_addTrack. do 3 eexists. traces. frame.
      cbn [onAddTrack with_tracks]. rewrite Hadd. cbn [fire_events].
      rewrite <- !app_assoc. cbn [app]. reflexivity. }
    destruct Htr as (seen & b & d & Htr).
    rewrite (emitted_app _ _ _ Htr), view_after_app, view_ignores_hook by exact I.
    unfold fold_left, view_event. rewrite Nat.eqb_refl.
    destruct track; [contradiction|]. reflexivity.
  - (* deleteTrack *)
    destruct (Playlist_deleteTrack_spec pl track w) as (-> & _).
    rewrite heap_with_same. cbn [tracks with_tracks].
    assert (Htr : exists seen b d,
               trace (Playlist_deleteTrack pl track w)
               = trace w ++ fire_events (Some pl) OnTracksChange
                              (onTracksChange (heap w pl)) [] w
                   ++ Notify OnDeleteTrack (ViewCallback v) [ANum (indexOf JsVal_eqb (tracks (heap w pl)) track)] seen
                   :: [LogCall "Delete Track" b; Saved d]).
    { unfold Playlist_deleteTrack. do 3 eexists. traces. frame.
      cbn [onDeleteTrack with_tracks]. rewrite Hdel. cbn [fire_events].
      rewrite <- !app_assoc. cbn [app]. reflexivity. }
    destruct Htr as (seen & b & d & Htr).
    rewrite (emitted_app _ _ _ Htr), view_after_app, view_ignores_hook by exact I.
    unfold fold_left, view_event. rewrite Nat.eqb_refl.
    unfold PlaylistView_deleteTrack. rewrite view_get_indexOf by assumption.
    reflexivity.
  - (* moveTrack *)
    destruct (Playlist_moveTrack_spec pl from to w) as (Hh & _).
    rewrite Hh, Nat.eqb_refl.
    destruct (Z.eqb_spec from to) as [-> | Hne].
    + assert (Htr : trace (Playlist_moveTrack pl to to w)
                    = trace w ++ fire_events (Some pl) OnTracksChange
                                   (onTracksChange (heap w pl)) [] w).
      { unfold Playlist_moveTrack. cbv zeta. rewrite Z.eqb_refl. apply fire_trace. }
      rewrite (emitted_app _ _ _ Htr), view_ignores_hook by exact I. reflexivity.
    + destruct Hcan as [-> | Hf]; [contradiction|].
      cbn [tracks with_tracks].
      assert (Htr : exists seen b d,
                 trace (Playlist_moveTrack pl from to w)
                 = trace w ++ fire_events (Some pl) OnTracksChange
                                (onTracksChange (heap w pl)) [] w
                     ++ Notify OnMoveTrack (ViewCallback v) [ANum from; ANum to] seen
                   :: [LogCall "Move Track" b; Saved d]).
      { unfold Playlist_moveTrack. cbv zeta.
        destruct (Z.eqb_spec from to) as [E | _]; [contradiction|].
        do 3 eexists. traces. frame.
        cbn [onMoveTrack with_tracks]. rewrite Hmov. cbn [fire_events].
        rewrite <- !app_assoc. cbn [app]. reflexivity. }
      destruct Htr as (seen & b & d & Htr).
      rewrite (emitted_app _ _ _ Htr), view_after_app, view_ignores_hook by exact I.
      unfold fold_left, view_event. rewrite Nat.eqb_refl.
      unfold PlaylistView_moveTrack. rewrite view_get_array_get by assumption.
      reflexivity.
Qed.

(** X14: the playlist view follows the model.  While the view's
    callbacks are installed on a playlist, after each call on that
    playlist whose entry the view can find, the view's list of entries,
    having reacted to the notifications of the call, is the playlist's
    track sequence again, and no view method has thrown; the same holds
    for an undo that reverts a call on that playlist. *)
Theorem view_follows_model (v : nat) (pl : PlaylistRef) (w : World) :
  view_installed v pl w ->
  (forall m,
      self m = Some pl ->
      view_can_follow m w ->
      view_after v (emitted w (mutate m w)) (tracks (heap w pl))
      = Some (tracks (heap (mutate m w) pl))) /\
  (forall rs r b,
      History w = mkHistory (rs ++ [r]) b ->
      self (mutator_of (revert r)) = Some pl ->
      view_can_follow (mutator_of (revert r)) w ->
      view_after v (emitted w (History_undo w)) (tracks (heap w pl))
      = Some (tracks (heap (History_undo w) pl))).
Proof.
  intros Hv. split.
  - intros m Hs Hc. now apply view_follows_call.
  - intros rs r b HH Hs Hc.
    set (w2 := set_History (mkHistory rs true) w).
    assert (Hv2 : view_installed v pl w2) by exact Hv.
    assert (Hc2 : view_can_follow (mutator_of (revert r)) w2).
    { destruct (mutator_of (revert r)); exact Hc. }
    pose proof (view_follows_call v pl _ w2 Hs Hv2 Hc2) as H.
    unfold w2 in H. rewrite heap_set_History in H.
    rewrite (History_undo_heap _ _ _ _ HH), call_revert_mutate.
    rewrite <- H. f_equal. unfold emitted.
    rewrite (History_undo_trace _ _ _ _ HH), call_revert_mutate. reflexivity.
Qed.

(** The theorem on [A, B, C, D] with the view open: the view follows
    [moveTrack(0, 2)] and the undo of it. *)
Lemma view_follows_model_witness :
  view_after 1 (emitted world_with_view (mutate (MoveTrack 0 0 2) world_with_view))
             [trackA; trackB; trackC; trackD]
  = Some [trackB; trackC; trackA; trackD] /\
  view_after 1 (emitted (mutate (MoveTrack 0 0 2) world_with_view)
                        (History_undo (mutate (MoveTrack 0 0 2) world_with_view)))
             [trackB; trackC; trackA; trackD]
  = Some [trackA; trackB; trackC; trackD].
Proof.
  split.
  - assert (Hv : view_installed 1 0 world_with_view)
      by (vm_compute; repeat split).
    assert (Hc : view_can_follow (MoveTrack 0 0 2) world_with_view)
      by (right; vm_compute; split; [discriminate | reflexivity]).
    pose proof (proj1 (view_follows_model 1 0 world_with_view Hv)
                      (MoveTrack 0 0 2) eq_refl Hc) as H.
    etransitivity; [exact H|]. vm_compute. reflexivity.
  - set (w1 := mutate (MoveTrack 0 0 2) world_with_view).
    assert (Hv : view_installed 1 0 w1) by (vm_compute; repeat split).
    assert (HH : History w1
                 = mkHistory (records (History world_with_view)
                                ++ [mkRecord "Move Track" (RevMoveTrack 0 2 0)])
                             false)
      by (vm_compute; reflexivity).
    assert (Hc : view_can_follow (mutator_of (RevMoveTrack 0 2 0)) w1)
      by (right; vm_compute; split; [discriminate | reflexivity]).
    pose proof (proj2 (view_follows_model 1 0 w1 Hv) _ _ _ HH eq_refl Hc) as H.
    etransitivity; [|etransitivity; [exact H|]]; vm_compute; reflexivity.
Defined.
